(** * go-hdb: argument conversion and parameter binding (driver/convert.go)

    A shallow embedding of [isNilArg], [reorderNVArgs], [convertArg],
    [convertExecArgs], [convertQueryArgs] and [convertCallArgs], and the
    properties of the binding layer proved on it. *)

From stdpp Require Import base list strings gmap.
From Stdlib Require Import ZArith Lia Sorted.

Local Open Scope string_scope.
Local Open Scope Z_scope.
Local Open Scope nat_scope.
Local Open Scope list_scope.

(** ** Caller-side values

    A [driver.Value] / [any] is inspected by the code in three ways only:
    comparison with the untyped nil, [reflect] (is it a pointer, is the
    pointer nil, what does it point to) and type assertions
    ([driver.Valuer], [sql.Out], [*sql.Rows], [*p.LobInDescr]).  The variant
    below has one constructor per shape those inspections tell apart.

    Pointers need not end: after [var x any; x = &x] every
    [rv.Elem().Interface()] from [x] is [x] again.  [VCyclic] stands for
    such a pointer, one from which each indirection leads to a non-nil
    pointer once more.  The pointers on such a path point to an interface
    or to a pointer, so their types have no methods and none of the type
    assertions of the code succeeds on them. *)

(** Identity of a [driver.Valuer] implementation together with its receiver. *)
Definition valuer := nat.

(** Address of a [p.LobInDescr]; a [*p.LobInDescr] is such an address. *)
Definition lobref := nat.

Inductive value : Type :=
| VNil                                              (* the untyped nil interface *)
| VPrim (z : Z)                                     (* a non-pointer value with no capability *)
| VValuer (vl : valuer)                             (* a non-pointer value that is a driver.Valuer *)
| VOut (name : string) (dest : value) (in_ : bool)  (* sql.Out{Name, Dest, In} *)
| VNilPtr (vl : option valuer)                      (* a nil pointer; its type may be a Valuer *)
| VPtr (vl : option valuer) (elem : value)          (* a non-nil pointer to elem *)
| VCyclic                                           (* a non-nil pointer on a cycle of pointers *)
| VRows (isnil : bool)                              (* *sql.Rows *)
| VLob (l : lobref).                                (* a non-nil *p.LobInDescr *)

(** The dynamic type printed by the [%T] verb. *)
Inductive dyntype := TNil | TPrim | TValuer | TOut | TPtr | TRows | TLob.

Definition typeOf (v : value) : dyntype :=
  match v with
  | VNil => TNil
  | VPrim _ => TPrim
  | VValuer _ => TValuer
  | VOut _ _ _ => TOut
  | VNilPtr _ | VPtr _ _ | VCyclic => TPtr
  | VRows _ => TRows
  | VLob _ => TLob
  end.

(** [driver.NamedValue] *)
Module NamedValue.
Record t : Type := mk { Ordinal : Z; Name : string; Value : value }.

(** [nvarg.Value = v] *)
Definition setValue (v : value) (a : t) : t := mk (Ordinal a) (Name a) v.

(** What an assignment to [Value] leaves alone. *)
Definition key (a : t) : Z * string := (Ordinal a, Name a).
End NamedValue.

(** ** Errors, panics and outcomes *)

Inductive error : Type :=
| ErrExternal (code : nat)
    (* an error made by a collaborator: Valuer.Value, field.Convert, FetchNext *)
| ErrNotMultiple (nargs numField : nat)
    (* "invalid number of arguments %d - multiple of %d expected" *)
| ErrNumArgs (nargs nfields : nat)
    (* "invalid number of arguments %d - %d expected" *)
| ErrFieldOut (field : string)
    (* "invalid parameter %s - output not allowed" *)
| ErrArgOut (nvarg : NamedValue.t)
    (* "invalid argument %v - output not allowed" *)
| ErrNamed (name : string)
    (* "invalid argument %s - named parameters not supported" *)
| ErrConversion (field : string) (cause : error)
    (* "field %s conversion error - %w" *)
| ErrArgName (name suggestion : string)
    (* "invalid argument name %s - did you mean %s?" *)
| ErrInWithOut (field : string)
    (* "argument field %s mismatch - use in argument with out field" *)
| ErrOutWithNonOut (field : string)
    (* "argument field %s mismatch - use out argument with non-out field" *)
| ErrOutType (t : dyntype)
    (* "invalid output parameter type %T" *)
| ErrParamType (t : dyntype) (i : nat)
    (* "invalid parameter type %T at %d - output parameter expected" *)
| ErrOutParam (t : dyntype) (i : nat).
    (* "invalid output parameter %T at %d - sql.Rows expected" *)

(** Run-time faults of the Go program. *)
Inductive panic := DivideByZero | IndexOutOfRange.

(** How a call ends: a value, a returned error, a panic, or no return:
    none within the given number of [Valuer.Value] calls, or none at all
    where the recursion of [isNilArg] does not end. *)
Inductive outcome (A : Type) : Type :=
| Ok (a : A)
| Fail (e : error)
| Panic (p : panic)
| OutOfFuel.
Arguments Ok {A} a.
Arguments Fail {A} e.
Arguments Panic {A} p.
Arguments OutOfFuel {A}.

(** [p.ParameterField], through the accessors the binding layer calls. *)
Module Field.
Record t : Type := mk {
  Name : string;
  In : bool;
  Out : bool;
  Convert : value -> value * option error;  (* field.Convert(arg, cesu8Encoder) *)
  String : string                            (* the %s rendering *)
}.
End Field.

(** ** isNilArg

    The function recurses through [rv.Elem().Interface()] with no bound of
    its own.  The result is [Some b] when it returns [b], and [None] when
    the recursion does not end, which is the case on a cycle of pointers
    and there only. *)

Fixpoint isNilArg (v : value) : option bool :=
  match v with
  | VNil => Some true                                (* v == nil *)
  | VPrim _ | VValuer _ | VOut _ _ _ => Some false   (* rv.Kind() != reflect.Ptr *)
  | VNilPtr _ => Some true                           (* rv.IsNil() *)
  | VPtr _ x => isNilArg x                           (* isNilArg(rv.Elem().Interface()) *)
  | VCyclic => None                                  (* the same call, again and again *)
  | VRows isnil => Some isnil                        (* nil, or a pointer to a struct *)
  | VLob _ => Some false                             (* a pointer to a struct *)
  end.

(** [reflect.ValueOf(v).Kind() == reflect.Ptr] *)
Definition kindIsPtr (v : value) : bool :=
  match v with
  | VNilPtr _ | VPtr _ _ | VCyclic | VRows _ | VLob _ => true
  | _ => false
  end.

(** [n] pointers on top of [x]. *)
Fixpoint pointerTo (n : nat) (x : value) : value :=
  match n with
  | O => x
  | S k => VPtr None (pointerTo k x)
  end.

(** ** reorderNVArgs *)

Definition nameMatches (name : string) (a : NamedValue.t) : bool :=
  negb (bool_decide (NamedValue.Name a = "")) && bool_decide (NamedValue.Name a = name).

(** [for j := i; j > pos; j-- { nvargs[j] = nvargs[j-1] }], with [cnt = j - pos].
    The loop runs with [i < len(nvargs)], so [j-1] is always in range. *)
Fixpoint shiftRight (pos cnt : nat) (nvargs : list NamedValue.t) : list NamedValue.t :=
  match cnt with
  | O => nvargs
  | S c =>
      match nvargs !! (pos + c) with
      | Some x => shiftRight pos c (<[pos + S c := x]> nvargs)
      | None => nvargs
      end
  end.

(** The body of the outer loop at index [i], which the loop condition
    keeps below [len(nvargs)]. *)
Definition reorderStep (pos : nat) (name : string) (i : nat)
    (nvargs : list NamedValue.t) : list NamedValue.t :=
  match nvargs !! i with
  | Some tmp =>
      if nameMatches name tmp
      then <[pos := tmp]> (shiftRight pos (i - pos) nvargs)
      else nvargs
  | None => nvargs
  end.

(** [for i := pos; i < len(nvargs); i++ { ... }], with [cnt = len(nvargs) - i]. *)
Fixpoint reorderLoop (pos : nat) (name : string) (cnt i : nat)
    (nvargs : list NamedValue.t) : list NamedValue.t :=
  match cnt with
  | O => nvargs
  | S c => reorderLoop pos name c (S i) (reorderStep pos name i nvargs)
  end.

Definition reorderNVArgs (pos : nat) (name : string) (nvargs : list NamedValue.t)
    : list NamedValue.t :=
  reorderLoop pos name (length nvargs - pos) pos nvargs.

(** The reordering as section 4.5 of the specification words it: scan from
    [p]; the first entry named [t] goes to position [p], the entries between
    move one slot to the right. *)
Fixpoint firstNamed (t : string) (i : nat) (l : list NamedValue.t) : option (nat * NamedValue.t) :=
  match l with
  | [] => None
  | a :: rest =>
      if bool_decide (NamedValue.Name a = t) then Some (i, a)
      else firstNamed t (S i) rest
  end.

Definition rotateTo (p i : nat) (a : NamedValue.t) (l : list NamedValue.t) : list NamedValue.t :=
  take p l ++ a :: take (i - p) (drop p l) ++ drop (S i) l.

Definition rotateFirstNamed (p : nat) (t : string) (l : list NamedValue.t) : list NamedValue.t :=
  match firstNamed t p (drop p l) with
  | Some (i, a) => rotateTo p i a l
  | None => l
  end.

(** The entries at or after position [p] that carry the name [t]. *)
Definition namedFrom (p : nat) (t : string) (l : list NamedValue.t) : list NamedValue.t :=
  List.filter (fun a => bool_decide (NamedValue.Name a = t)) (drop p l).

(** ** convertArg *)

(** What a Go function of result type [(any, error)] hands back, if it
    returns at all. *)
Inductive returned : Type :=
| Returns (v : value) (err : option error)
| Diverges.

(** [callArgs] *)
Record callArgs : Type := mkCallArgs {
  inFields : list Field.t;
  outFields : list Field.t;
  inArgs : list NamedValue.t;
  outArgs : list NamedValue.t
}.

Definition newCallArgs : callArgs := mkCallArgs [] [] [] [].

(** [arg.(driver.Valuer)] *)
Definition asValuer (arg : value) : option valuer :=
  match arg with
  | VValuer vl => Some vl
  | VNilPtr (Some vl) | VPtr (Some vl) _ => Some vl
  | _ => None
  end.

(** [_, ok := v.(sql.Out)] *)
Definition isOutArg (v : value) : bool :=
  match v with VOut _ _ _ => true | _ => false end.

(** The type assertion of [v] to [*sql.Rows] succeeds. *)
Definition isRows (v : value) : bool :=
  match v with VRows _ => true | _ => false end.

(** A trailing argument the table-output loop accepts. *)
Definition isCursorOut (a : NamedValue.t) : bool :=
  match NamedValue.Value a with
  | VOut _ dest _ => isRows dest
  | _ => false
  end.

(** ** Sample collaborators and inputs

    Stand-ins for what lives outside [convert.go], and the inputs of the
    scenarios of section 8 of the specification. *)

(** Valuers: 0 yields valuer 1, 1 yields the value 7, 2 fails, and every
    other one yields itself. *)
Definition sampleValuer (vl : valuer) : error + value :=
  match vl with
  | 0 => inr (VValuer 1)
  | 1 => inr (VPrim 7)
  | 2 => inl (ErrExternal 9)
  | _ => inr (VValuer vl)
  end.

(** A LOB source that logs the descriptors fetched from; descriptor [l]
    has reached its last data once it was fetched from [l] times. *)
Definition logFetchNext (lobChunkSize : Z) (l : lobref) (w : list lobref)
    : list lobref * option error :=
  (w ++ [l], None).

Definition logIsLastData (l : lobref) (w : list lobref) : bool :=
  l <=? count_occ Nat.eq_dec w l.

Definition noSuggestion (fields : list Field.t) (s : string) : string := s.

(** An integer input field named [name]: converts a value to itself. *)
Definition intField (name : string) : Field.t :=
  Field.mk name true false (fun v => (v, None)) name.

(** A LOB input field named [name]: the value [z] becomes descriptor [z]. *)
Definition lobField (name : string) : Field.t :=
  Field.mk name true false
    (fun v => match v with
              | VPrim z => (VLob (Z.to_nat z), None)
              | _ => (v, None)
              end) name.

(** A positional argument. *)
Definition arg (ordinal : Z) (v : value) : NamedValue.t := NamedValue.mk ordinal "" v.

(** A named argument with an integer value. *)
Definition named (ordinal : Z) (name : string) (z : Z) : NamedValue.t :=
  NamedValue.mk ordinal name (VPrim z).

(** Three rows for the fields [int; lob]; the LOB of row 1 needs a second
    chunk. *)
Definition threeRows : list NamedValue.t :=
  [arg 1 (VPrim 10); arg 2 (VPrim 1);
   arg 3 (VPrim 20); arg 4 (VPrim 2);
   arg 5 (VPrim 30); arg 6 (VPrim 0)].

(** [threeRows] after binding to [int; lob]. *)
Definition threeRowsBound : list NamedValue.t :=
  [arg 1 (VPrim 10); arg 2 (VLob 1);
   arg 3 (VPrim 20); arg 4 (VLob 2);
   arg 5 (VPrim 30); arg 6 (VLob 0)].

(** A wrapper made by [sql.Out{Dest: dest, In: in_}]. *)
Definition outArg (ordinal : Z) (dest : value) (in_ : bool) : NamedValue.t :=
  arg ordinal (VOut "" dest in_).

(** A window in which two entries carry the name [t]. *)
Definition twoNamedT : list NamedValue.t :=
  [named 1 "a" 1; named 2 "t" 2; named 3 "b" 3; named 4 "t" 4].

(** Arguments named in the reverse of the declared order. *)
Definition namedBA : list NamedValue.t := [named 1 "B" 2; named 2 "A" 1].

(** ** Package dbtest: the session variables of a connection

    [sessionContext] reads the view [m_session_context] and
    [QuerySessionVariables] folds its records into a map.  The database is
    seen through what the query hands back. *)
Module dbtest.

(** A record of the view. *)
Record mSessionContext : Type := mk {
  host : string;
  port : Z;
  connectionID : Z;
  key : string;
  value : string;
  section : string
}.

(** The rows of a query: what [rows.Scan] yields after each [rows.Next()]
    that returned true, and what [rows.Err()] reports after the last. *)
Record rows : Type := mkRows {
  scans : list (error + mSessionContext);
  Err : option error
}.

(** The loop over [rows.Next()], from the records appended so far. *)
Fixpoint scanAll (mscs : list mSessionContext) (scans : list (error + mSessionContext))
    : error + list mSessionContext :=
  match scans with
  | [] => inr mscs
  | inl err :: _ => inl err                       (* Scan failed *)
  | inr msc :: rest => scanAll (mscs ++ [msc]) rest
  end.

(** [query] is what [db.Query] returned. *)
Definition sessionContext (query : error + rows) : error + list mSessionContext :=
  match query with
  | inl err => inl err
  | inr rs =>
      match scanAll [] (scans rs) with
      | inl err => inl err
      | inr mscs =>
          match Err rs with
          | Some err => inl err
          | None => inr mscs
          end
      end
  end.

Definition QuerySessionVariables (query : error + rows) : error + gmap string string :=
  match sessionContext query with
  | inl err => inl err
  | inr mscs => inr (foldl (fun sv v => <[key v := value v]> sv) ∅ mscs)
  end.

End dbtest.

Section Binding.

(** The collaborators outside [convert.go]. *)
Context {World : Type}.
(** [valuer.Value()] *)
Variable valuerValue : valuer -> error + value.
(** [lobInDescr.FetchNext(lobChunkSize)]: reads from the chunk source. *)
Variable FetchNext : Z -> lobref -> World -> World * option error.
(** [lobInDescr.Opt.IsLastData()] *)
Variable IsLastData : lobref -> World -> bool.
(** [levenshtein.MinString(fields, name-of, s, false)] *)
Variable MinString : list Field.t -> string -> string.

(** The unwrap loop of [convertArg]; [fuel] bounds the calls of [Value].
    The loop condition is evaluated first: where [isNilArg(arg)] does not
    return, the loop does not. *)
Fixpoint resolve (fuel : nat) (arg : value) : outcome value :=
  match isNilArg arg with
  | None => OutOfFuel
  | Some true => Ok arg
  | Some false =>
      match asValuer arg with
      | None => Ok arg
      | Some vl =>
          match fuel with
          | O => OutOfFuel
          | S fuel' =>
              match valuerValue vl with
              | inl e => Fail e
              | inr arg' => resolve fuel' arg'
              end
          end
      end
  end.

(** The unwrap loop as section 4.2 of the specification words it: [unwraps
    v n r] when [n] calls of the producer lead from [v] to the value the
    loop stops at ([inr]) or to the error of the call that failed ([inl]).
    A chain is made of values on which the null test returns; it does not
    go through a cycle of pointers. *)
Inductive unwraps : value -> nat -> error + value -> Prop :=
| unwraps_stop v :
    isNilArg v = Some true \/ (isNilArg v = Some false /\ asValuer v = None) ->
    unwraps v 0 (inr v)
| unwraps_fail v vl e :
    isNilArg v = Some false -> asValuer v = Some vl -> valuerValue vl = inl e ->
    unwraps v 1 (inl e)
| unwraps_step v vl v' n r :
    isNilArg v = Some false -> asValuer v = Some vl -> valuerValue vl = inr v' ->
    unwraps v' n r ->
    unwraps v (S n) r.

(** The loop returns within some number of producer calls. *)
Definition terminates (arg : value) : Prop :=
  exists fuel, resolve fuel arg <> OutOfFuel.

(** [convertArg]: the loop, then [field.Convert(arg, cesu8Encoder)].  The
    loop itself has no run-time fault. *)
Definition convertArg (fuel : nat) (field : Field.t) (arg : value) : returned :=
  match resolve fuel arg with
  | Ok arg' => let '(v, err) := Field.Convert field arg' in Returns v err
  | Fail e => Returns VNil (Some e)      (* return nil, err *)
  | Panic _ | OutOfFuel => Diverges
  end.

(** ** The caller's array and the LOB sources, threaded through a call *)

Record state : Type := mkState {
  nvargs : list NamedValue.t;
  world : World
}.

Definition M (A : Type) : Type := state -> state * outcome A.

#[local] Instance M_ret : MRet M := fun A a s => (s, Ok a).

#[local] Instance M_bind : MBind M := fun A B f m s =>
  match m s with
  | (s', Ok a) => f a s'
  | (s', Fail e) => (s', Fail e)
  | (s', Panic p) => (s', Panic p)
  | (s', OutOfFuel) => (s', OutOfFuel)
  end.

Definition fail {A} (e : error) : M A := fun s => (s, Fail e).

(** [&nvargs[k]], read. *)
Definition getArg (k : nat) : M NamedValue.t :=
  fun s =>
    match nvargs s !! k with
    | Some a => (s, Ok a)
    | None => (s, Panic IndexOutOfRange)
    end.

(** [nvargs[k].Value = v] *)
Definition putValue (k : nat) (v : value) : M unit :=
  fun s =>
    match nvargs s !! k with
    | Some a => (mkState (<[k := NamedValue.setValue v a]> (nvargs s)) (world s), Ok tt)
    | None => (s, Panic IndexOutOfRange)
    end.

(** [if nvargs[k].Value, err = convertArg(field, arg, enc); err != nil
       { return fmt.Errorf("field %s conversion error - %w", field, err) }] *)
Definition convertInto (fuel : nat) (field : Field.t) (k : nat) (arg : value) : M value :=
  match convertArg fuel field arg with
  | Diverges => fun s => (s, OutOfFuel)
  | Returns v err =>
      putValue k v ;;
      match err with
      | Some e => fail (ErrConversion (Field.String field) e)
      | None => mret v
      end
  end.

(** When [v] is a [*p.LobInDescr]:
    [if err := lobInDescr.FetchNext(lobChunkSize); err != nil { return err }];
    the result is then [Some (lobInDescr.Opt.IsLastData())]. *)
Definition primeLob (lobChunkSize : Z) (v : value) : M (option bool) :=
  match v with
  | VLob l =>
      fun s =>
        let '(w, err) := FetchNext lobChunkSize l (world s) in
        let s' := mkState (nvargs s) w in
        match err with
        | Some e => (s', Fail e)
        | None => (s', Ok (Some (IsLastData l w)))
        end
  | _ => mret None
  end.

(** ** convertExecArgs *)

(** The body of the inner loop for the argument at index [k]; the result
    is the new value of [hasAddLobData]. *)
Definition execArg (fuel : nat) (lobChunkSize : Z) (field : Field.t) (k : nat)
    (hasAddLobData : bool) : M bool :=
  nvarg ← getArg k;
  if Field.Out field then fail (ErrFieldOut (Field.String field))
  else if isOutArg (NamedValue.Value nvarg) then fail (ErrArgOut nvarg)
  else if negb (bool_decide (NamedValue.Name nvarg = "")) then fail (ErrNamed (NamedValue.Name nvarg))
  else
    v ← convertInto fuel field k (NamedValue.Value nvarg);
    last ← primeLob lobChunkSize v;
    match last with
    | Some false => mret true
    | _ => mret hasAddLobData
    end.

(** [for j, field := range fields { nvarg := &nvargs[(i*numField)+j]; ... }] *)
Fixpoint execRow (fuel : nat) (lobChunkSize : Z) (numField i : nat)
    (fields : list Field.t) (j : nat) (hasAddLobData : bool) : M bool :=
  match fields with
  | [] => mret hasAddLobData
  | field :: rest =>
      has ← execArg fuel lobChunkSize field (i * numField + j) hasAddLobData;
      execRow fuel lobChunkSize numField i rest (S j) has
  end.

(** [for i := 0; i < numRow; i++ { ... }], with [cnt = numRow - i]. *)
Fixpoint execRows (fuel : nat) (lobChunkSize : Z) (fields : list Field.t)
    (numField numRow cnt i : nat) (addLobDataRecs : list nat) : M (list nat) :=
  match cnt with
  | O => mret addLobDataRecs
  | S c =>
      hasAddLobData ← execRow fuel lobChunkSize numField i fields 0 false;
      execRows fuel lobChunkSize fields numField numRow c (S i)
        (if hasAddLobData || bool_decide (i = numRow - 1)
         then addLobDataRecs ++ [i] else addLobDataRecs)
  end.

Definition convertExecArgs (fuel : nat) (fields : list Field.t) (lobChunkSize : Z)
    : M (list nat) :=
  fun s =>
    let numField := length fields in
    match numField with
    | O => (s, Panic DivideByZero)        (* len(nvargs) % 0 *)
    | S _ =>
        if negb (length (nvargs s) mod numField =? 0)
        then (s, Fail (ErrNotMultiple (length (nvargs s)) numField))
        else
          let numRow := length (nvargs s) / numField in
          execRows fuel lobChunkSize fields numField numRow numRow 0 [] s
    end.

(** ** convertQueryArgs *)

(** [for i, field := range fields { nvarg := &nvargs[i]; ... }] *)
Fixpoint queryFields (fuel : nat) (lobChunkSize : Z) (fields : list Field.t) (i : nat)
    : M unit :=
  match fields with
  | [] => mret tt
  | field :: rest =>
      nvarg ← getArg i;
      if Field.Out field then fail (ErrFieldOut (Field.String field))
      else if isOutArg (NamedValue.Value nvarg) then fail (ErrArgOut nvarg)
      else if negb (bool_decide (NamedValue.Name nvarg = ""))
      then fail (ErrNamed (NamedValue.Name nvarg))
      else
        v ← convertInto fuel field i (NamedValue.Value nvarg);
        primeLob lobChunkSize v ;;
        queryFields fuel lobChunkSize rest (S i)
  end.

Definition convertQueryArgs (fuel : nat) (fields : list Field.t) (lobChunkSize : Z)
    : M unit :=
  fun s =>
    if negb (length (nvargs s) =? length fields)
    then (s, Fail (ErrNumArgs (length (nvargs s)) (length fields)))
    else queryFields fuel lobChunkSize fields 0 s.

(** ** convertCallArgs *)

(** [reorderNVArgs(i, field.Name(), prmnvargs)] on the window
    [prmnvargs := nvargs[:len(fields)]], which shares the caller's array. *)
Definition reorderWindow (numField i : nat) (name : string) : M unit :=
  fun s =>
    (mkState (reorderNVArgs i name (take numField (nvargs s)) ++ drop numField (nvargs s))
             (world s), Ok tt).

(** The [if field.In() { ... }] block.  [out] is the local copy made by
    [out, isOut := nvarg.Value.(sql.Out)], as [(Dest, In)]; the block hands
    it back with its [Dest] reassigned. *)
Definition callIn (fuel : nat) (lobChunkSize : Z) (field : Field.t) (i : nat)
    (nvarg : NamedValue.t) (out : option (value * bool)) (ca : callArgs)
    : M (option (value * bool) * callArgs) :=
  out' ← match out with
         | Some (dest, in_) =>
             if negb in_ then fail (ErrInWithOut (Field.String field))
             else
               match convertArg fuel field dest with
               | Diverges => fun s => (s, OutOfFuel)
               | Returns v (Some e) => fail (ErrConversion (Field.String field) e)
               | Returns v None => mret (Some (v, in_))       (* out.Dest = v *)
               end
         | None =>
             convertInto fuel field i (NamedValue.Value nvarg) ;;
             mret None
         end;
  cur ← getArg i;
  primeLob lobChunkSize (NamedValue.Value cur) ;;
  cur ← getArg i;
  mret (out', mkCallArgs (inFields ca ++ [field]) (outFields ca)
                        (inArgs ca ++ [cur]) (outArgs ca)).

(** The [if field.Out() { ... }] block. *)
Definition callOut (field : Field.t) (i : nat) (out : option (value * bool))
    (ca : callArgs) : M callArgs :=
  match out with
  | None => fail (ErrOutWithNonOut (Field.String field))
  | Some (dest, _) =>
      if isRows dest then fail (ErrOutType (typeOf dest))
      else
        cur ← getArg i;
        mret (mkCallArgs (inFields ca) (outFields ca ++ [field])
                        (inArgs ca) (outArgs ca ++ [cur]))
  end.

(** The body of [for i, field := range fields]. *)
Definition callField (fuel : nat) (lobChunkSize : Z) (fields : list Field.t)
    (i : nat) (field : Field.t) (ca : callArgs) : M callArgs :=
  reorderWindow (length fields) i (Field.Name field) ;;
  nvarg ← getArg i;
  if negb (bool_decide (NamedValue.Name nvarg = ""))
     && negb (bool_decide (NamedValue.Name nvarg = Field.Name field))
  then fail (ErrArgName (NamedValue.Name nvarg) (MinString fields (NamedValue.Name nvarg)))
  else
    let out := match NamedValue.Value nvarg with
               | VOut _ dest in_ => Some (dest, in_)
               | _ => None
               end in
    '(out, ca) ← (if Field.In field
                  then callIn fuel lobChunkSize field i nvarg out ca
                  else mret (out, ca));
    if Field.Out field then callOut field i out ca else mret ca.

Fixpoint callFields (fuel : nat) (lobChunkSize : Z) (fields rest : list Field.t)
    (i : nat) (ca : callArgs) : M callArgs :=
  match rest with
  | [] => mret ca
  | field :: rest' =>
      ca' ← callField fuel lobChunkSize fields i field ca;
      callFields fuel lobChunkSize fields rest' (S i) ca'
  end.

(** [for i := len(fields); i < len(nvargs); i++ { ... }], with
    [cnt = len(nvargs) - i]. *)
Fixpoint tableOutputArgs (cnt i : nat) (ca : callArgs) : M callArgs :=
  match cnt with
  | O => mret ca
  | S c =>
      nvarg ← getArg i;
      match NamedValue.Value nvarg with
      | VOut _ dest _ =>
          if isRows dest
          then tableOutputArgs c (S i)
                 (mkCallArgs (inFields ca) (outFields ca) (inArgs ca) (outArgs ca ++ [nvarg]))
          else fail (ErrOutParam (typeOf dest) i)
      | v => fail (ErrParamType (typeOf v) i)
      end
  end.

Definition convertCallArgs (fuel : nat) (fields : list Field.t) (lobChunkSize : Z)
    : M callArgs :=
  fun s =>
    if length (nvargs s) <? length fields
    then (s, Fail (ErrNumArgs (length (nvargs s)) (length fields)))
    else
      (ca ← callFields fuel lobChunkSize fields fields 0 newCallArgs;
       tableOutputArgs (length (nvargs s) - length fields) (length fields) ca) s.

(** ** What the specification measures the results against *)

(** Priming one converted value (section 4.4): the LOB source after it,
    and what the descriptor signalled, [Some (IsLastData)], if the value is
    a descriptor. *)
Definition primeOne (lobChunkSize : Z) (v : value) (w : World) : World * option bool :=
  match v with
  | VLob l =>
      let w' := (FetchNext lobChunkSize l w).1 in
      (w', Some (IsLastData l w'))
  | _ => (w, None)
  end.

(** The signals of priming the values [vs] one after the other. *)
Fixpoint primeSignals (lobChunkSize : Z) (vs : list value) (w : World)
    : list (option bool) :=
  match vs with
  | [] => []
  | v :: rest =>
      (primeOne lobChunkSize v w).2
      :: primeSignals lobChunkSize rest (primeOne lobChunkSize v w).1
  end.

Fixpoint primeWorld (lobChunkSize : Z) (vs : list value) (w : World) : World :=
  match vs with
  | [] => w
  | v :: rest => primeWorld lobChunkSize rest (primeOne lobChunkSize v w).1
  end.

(** A descriptor that did not signal IsLastData on its prime. *)
Definition owes (sig : option bool) : bool :=
  match sig with
  | Some false => true
  | _ => false
  end.

(** Some LOB of row [i], in a batch of rows of [n] arguments, owes
    continuation. *)
Definition rowOwes (sigs : list (option bool)) (n i : nat) : bool :=
  existsb owes (take n (drop (i * n) sigs)).

(** AddLobDataRecords as section 4.7 words it: every row that owes
    continuation, plus the final row. *)
Definition addLobDataRows (sigs : list (option bool)) (n numRow : nat) : list nat :=
  List.filter (fun i => rowOwes sigs n i || bool_decide (i = numRow - 1)) (seq 0 numRow).

(** The first argument from index [i] on that is not an output wrapper
    around a cursor sink. *)
Fixpoint firstNonCursor (i : nat) (l : list NamedValue.t) : option (nat * NamedValue.t) :=
  match l with
  | [] => None
  | a :: rest => if isCursorOut a then firstNonCursor (S i) rest else Some (i, a)
  end.

(** The error for a trailing argument [a] at index [i] that is refused:
    it carries the dynamic type observed and the index. *)
Definition trailingError (i : nat) (a : NamedValue.t) : error :=
  match NamedValue.Value a with
  | VOut _ dest _ => ErrOutParam (typeOf dest) i
  | v => ErrParamType (typeOf v) i
  end.

(** A computation relates the caller's array before to the array after by
    [R], however it ends. *)
Definition preserves {A} (R : relation (list NamedValue.t)) (m : M A) : Prop :=
  forall s, R (nvargs s) (nvargs (m s).1).

(** Every entry keeps its Ordinal and Name in place. *)
Definition keysKept (l l' : list NamedValue.t) : Prop :=
  NamedValue.key <$> l' = NamedValue.key <$> l.

(** What call-mode binding with [n] fields does to the array: the
    Ordinal/Name pairs are rearranged, the entries from [n] on are not
    touched, and nothing moves when no entry carries a name. *)
Definition callFrame (n : nat) (l l' : list NamedValue.t) : Prop :=
  NamedValue.key <$> l' ≡ₚ NamedValue.key <$> l
  /\ drop n l' = drop n l
  /\ (Forall (fun a => NamedValue.Name a = "") l -> keysKept l l').

(** The relation on results: the computation, when it returns a value,
    returns one that satisfies [Q]. *)
Definition yields {A} (m : M A) (Q : A -> Prop) : Prop :=
  forall s s' a, m s = (s', Ok a) -> Q a.

(** [ca'] is [ca] with the fields [ins] and [outs] appended, and one
    argument appended for each. *)
Definition callArgsGrow (ins outs : list Field.t) (ca ca' : callArgs) : Prop :=
  inFields ca' = inFields ca ++ ins
  /\ outFields ca' = outFields ca ++ outs
  /\ length (inArgs ca') = length (inArgs ca) + length ins
  /\ length (outArgs ca') = length (outArgs ca) + length outs.

(** [a'] is [a] with its Value converted for [field]. *)
Definition converted (fuel : nat) (field : Field.t) (a a' : NamedValue.t) : Prop :=
  exists v, convertArg fuel field (NamedValue.Value a) = Returns v None
            /\ a' = NamedValue.setValue v a.

(** ** What the further properties are stated with *)

(** An argument batched exec and query accept: no output wrapper, no name. *)
Definition plainPositional (a : NamedValue.t) : Prop :=
  isOutArg (NamedValue.Value a) = false /\ NamedValue.Name a = "".

(** The value is a [*p.LobInDescr]. *)
Definition isLob (v : value) : bool :=
  match v with VLob _ => true | _ => false end.

(** The result of a binder with the value it returns replaced: how two
    binders that end the same way are compared. *)
Definition withResult {A B} (b : B) (r : state * outcome A) : state * outcome B :=
  match r with
  | (s', Ok _) => (s', Ok b)
  | (s', Fail e) => (s', Fail e)
  | (s', Panic p) => (s', Panic p)
  | (s', OutOfFuel) => (s', OutOfFuel)
  end.

(** A computation run on an array of at least [n] entries leaves at least
    [n] entries and has no run-time fault. *)
Definition inBounds {A} (n : nat) (m : M A) : Prop :=
  forall s, n <= length (nvargs s) ->
    n <= length (nvargs (m s).1) /\ forall p, (m s).2 <> Panic p.

(** The entries of [l] at the positions of the fields that satisfy [P]. *)
Fixpoint pick (P : Field.t -> bool) (fs : list Field.t) (l : list NamedValue.t)
    : list NamedValue.t :=
  match fs, l with
  | f :: fs', a :: l' => if P f then a :: pick P fs' l' else pick P fs' l'
  | _, _ => []
  end.

(** What call-mode binding has made of the entry [a'] at the position of
    field [f], [A0] being the caller's arguments: [a'] carries no name or
    the name of [f], and it is either one of the caller's output wrappers,
    as passed, or one of the caller's other arguments, converted when [f]
    is an In field. *)
Definition boundTo (fuel : nat) (A0 : list NamedValue.t) (f : Field.t)
    (a' : NamedValue.t) : Prop :=
  (NamedValue.Name a' = "" \/ NamedValue.Name a' = Field.Name f)
  /\ ((exists name dest in_,
         NamedValue.Value a' = VOut name dest in_ /\ a' ∈ A0
         /\ (Field.In f = true ->
             in_ = true /\ exists v, convertArg fuel f dest = Returns v None)
         /\ (Field.In f = false -> Field.Out f = true -> isRows dest = false))
      \/ (Field.Out f = false
          /\ exists a, a ∈ A0 /\ isOutArg (NamedValue.Value a) = false
               /\ if Field.In f then converted fuel f a a' else a' = a)).

(** How the loops of batched exec and query refuse the argument [a] for
    the field [f], the LOB sources being [w]: the error [e], the slot [a']
    and the sources [w'] they leave.  The checks come in the order of the
    source: the direction of the field, the wrapper, the name, the
    conversion, the first chunk. *)
Definition rejects (fuel : nat) (sz : Z) (f : Field.t) (a : NamedValue.t) (w : World)
    (a' : NamedValue.t) (w' : World) (e : error) : Prop :=
  (Field.Out f = true
   /\ e = ErrFieldOut (Field.String f) /\ a' = a /\ w' = w)
  \/ (Field.Out f = false /\ isOutArg (NamedValue.Value a) = true
      /\ e = ErrArgOut a /\ a' = a /\ w' = w)
  \/ (Field.Out f = false /\ isOutArg (NamedValue.Value a) = false
      /\ NamedValue.Name a <> ""
      /\ e = ErrNamed (NamedValue.Name a) /\ a' = a /\ w' = w)
  \/ (Field.Out f = false /\ plainPositional a
      /\ exists v cause,
           convertArg fuel f (NamedValue.Value a) = Returns v (Some cause)
           /\ e = ErrConversion (Field.String f) cause
           /\ a' = NamedValue.setValue v a /\ w' = w)
  \/ (Field.Out f = false /\ plainPositional a
      /\ exists l,
           convertArg fuel f (NamedValue.Value a) = Returns (VLob l) None
           /\ a' = NamedValue.setValue (VLob l) a
           /\ FetchNext sz l w = (w', Some e)).

(** * Properties *)

(** ** NilProbe *)

Lemma isNilArg_pointerTo (n : nat) (x : value) :
  isNilArg (pointerTo n x) = isNilArg x.
Proof. induction n as [|n IH]; [reflexivity | exact IH]. Qed.

(** C10. [isNilArg] gives the same answer on a value, on a pointer to it
    and on a pointer to a pointer to it, whatever the pointer types, and so
    through any number of indirections (where it does not return on the
    value it does not return on the pointers to it either); it returns true
    on the untyped nil and on a nil pointer behind any number of
    indirections; it returns false on every value that is neither nil nor
    of pointer kind. *)
Theorem isNilArg_pointer_invariant (x : value) (vl vl' : option valuer) :
  isNilArg (VPtr vl x) = isNilArg x
  /\ isNilArg (VPtr vl' (VPtr vl x)) = isNilArg x
  /\ (forall n, isNilArg (pointerTo n x) = isNilArg x)
  /\ isNilArg VNil = Some true
  /\ (forall n, isNilArg (pointerTo n VNil) = Some true)
  /\ (forall n, isNilArg (pointerTo n (VNilPtr vl)) = Some true)
  /\ (kindIsPtr x = false -> x <> VNil -> isNilArg x = Some false).
Proof.
  repeat split; try (intros n; rewrite isNilArg_pointerTo); try reflexivity.
  intros Hkind Hnil. destruct x; simpl in *; congruence.
Qed.

(** ** ValueResolver *)


Lemma resolve_unwraps_sound (fuel : nat) :
  forall v,
    match resolve fuel v with
    | Ok v' => exists n, n <= fuel /\ unwraps v n (inr v')
               /\ (isNilArg v' = Some true
                   \/ (isNilArg v' = Some false /\ asValuer v' = None))
    | Fail e => exists n, n <= fuel /\ unwraps v n (inl e)
    | Panic _ => False
    | OutOfFuel => True
    end.
Proof.
  induction fuel as [|fuel IH]; intros v; simpl.
  - destruct (isNilArg v) as [[|]|] eqn:Hnil; [| |done].
    + exists 0. split; [lia|]. split; [constructor|]; by left.
    + destruct (asValuer v) eqn:Hval; [done|].
      exists 0. split; [lia|]. split; [constructor|]; by right.
  - destruct (isNilArg v) as [[|]|] eqn:Hnil; [| |done].
    + exists 0. split; [lia|]. split; [constructor|]; by left.
    + destruct (asValuer v) as [vl|] eqn:Hval.
      * destruct (valuerValue vl) as [e|v'] eqn:Hcall.
        -- exists 1. split; [lia|]. by eapply unwraps_fail.
        -- specialize (IH v'). destruct (resolve fuel v') as [w|e| |]; try done.
           ++ destruct IH as (n & Hn & Hu & Hstop). exists (S n).
              split; [lia|]. split; [by eapply unwraps_step|done].
           ++ destruct IH as (n & Hn & Hu). exists (S n).
              split; [lia|]. by eapply unwraps_step.
      * exists 0. split; [lia|]. split; [constructor|]; by right.
Qed.


(** The condition is the exact one: where the loop returns, the chain is
    finite and the null test has returned on each of its values. *)
Lemma terminates_finite_chain (v : value) :
  terminates v -> exists n r, unwraps v n r.
Proof.
  intros [fuel Hfuel]. pose proof (resolve_unwraps_sound fuel v) as Hs.
  destruct (resolve fuel v) as [v'|e|p|]; try done.
  - destruct Hs as (n & _ & Hu & _). by exists n, (inr v').
  - destruct Hs as (n & _ & Hu). by exists n, (inl e).
Qed.

(** Where the null test does not return, the loop does not: the test is
    its condition. *)
Lemma resolve_isNilArg_no_return (v : value) :
  isNilArg v = None -> forall fuel, resolve fuel v = OutOfFuel.
Proof. intros Hnil fuel. destruct fuel; simpl; by rewrite Hnil. Qed.

(** So it is behind any number of pointers to a cycle of pointers. *)
Lemma resolve_cyclic_no_return (n fuel : nat) :
  resolve fuel (pointerTo n VCyclic) = OutOfFuel.
Proof. apply resolve_isNilArg_no_return. by rewrite isNilArg_pointerTo. Qed.

(** ** NVReorderer *)

Lemma shiftRight_split (l1 mid : list NamedValue.t) :
  forall (tmp : NamedValue.t) (l2 : list NamedValue.t),
    shiftRight (length l1) (length mid) (l1 ++ mid ++ tmp :: l2)
    = l1 ++ default tmp (head mid) :: mid ++ l2.
Proof.
  induction mid as [|x mid' IH] using rev_ind; intros tmp l2; [reflexivity|].
  rewrite length_app, Nat.add_1_r. simpl shiftRight.
  assert (Hx : (l1 ++ (mid' ++ [x]) ++ tmp :: l2) !! (length l1 + length mid') = Some x).
  { rewrite lookup_app_r by lia. rewrite <- (assoc app), lookup_app_r by lia.
    replace (length l1 + length mid' - length l1 - length mid') with 0 by lia.
    reflexivity. }
  rewrite Hx.
  assert (Hins : <[length l1 + S (length mid') := x]> (l1 ++ (mid' ++ [x]) ++ tmp :: l2)
                 = l1 ++ mid' ++ x :: (x :: l2)).
  { rewrite insert_app_r_alt by lia. f_equal.
    rewrite <- (assoc app). rewrite insert_app_r_alt by lia. f_equal.
    replace (length l1 + S (length mid') - length l1 - length mid') with 1 by lia.
    reflexivity. }
  rewrite Hins, IH. f_equal. rewrite <- (assoc app). simpl.
  by destruct mid'.
Qed.

Lemma reorderStep_split (name : string) (l1 mid : list NamedValue.t)
    (tmp : NamedValue.t) (l2 : list NamedValue.t) :
  nameMatches name tmp = true ->
  reorderStep (length l1) name (length l1 + length mid) (l1 ++ mid ++ tmp :: l2)
  = l1 ++ tmp :: mid ++ l2.
Proof.
  intros Hm. unfold reorderStep.
  rewrite lookup_app_r by lia. rewrite lookup_app_r by lia.
  replace (length l1 + length mid - length l1 - length mid) with 0 by lia.
  simpl. rewrite Hm.
  replace (length l1 + length mid - length l1) with (length mid) by lia.
  rewrite shiftRight_split.
  rewrite insert_app_r_alt by lia. by rewrite Nat.sub_diag.
Qed.

Lemma reorderStep_nomatch (pos : nat) (name : string) (i : nat)
    (l : list NamedValue.t) :
  (forall a, l !! i = Some a -> nameMatches name a = false) ->
  reorderStep pos name i l = l.
Proof.
  intros H. unfold reorderStep. destruct (l !! i) as [a|]; [|done].
  by rewrite (H a).
Qed.

Lemma reorderLoop_noop (pos : nat) (name : string) (cnt : nat) :
  forall (i : nat) (l : list NamedValue.t),
    Forall (fun a => nameMatches name a = false) (drop i l) ->
    reorderLoop pos name cnt i l = l.
Proof.
  induction cnt as [|cnt IH]; intros i l Hall; [reflexivity|].
  simpl. rewrite reorderStep_nomatch.
  - apply IH. rewrite <- (Nat.add_1_r i), <- drop_drop. by apply Forall_drop.
  - intros a Ha. rewrite Forall_forall in Hall. apply Hall.
    apply list_elem_of_lookup. exists 0.
    by rewrite lookup_drop, Nat.add_0_r.
Qed.

Lemma reorderLoop_skip (pos : nat) (name : string) (pre : list NamedValue.t) :
  forall (cnt : nat) (l1 rest : list NamedValue.t),
    Forall (fun a => nameMatches name a = false) pre ->
    reorderLoop pos name (length pre + cnt) (length l1) (l1 ++ pre ++ rest)
    = reorderLoop pos name cnt (length l1 + length pre) (l1 ++ pre ++ rest).
Proof.
  induction pre as [|x pre IH]; intros cnt l1 rest Hall.
  - simpl. by rewrite Nat.add_0_r.
  - inversion Hall as [|? ? Hx Hpre]; subst. simpl.
    rewrite reorderStep_nomatch.
    + specialize (IH cnt (l1 ++ [x]) rest Hpre).
      rewrite length_app, Nat.add_1_r in IH.
      rewrite <- (assoc app) in IH. simpl in IH. rewrite IH.
      f_equal. lia.
    + intros a. rewrite lookup_app_r by lia. rewrite Nat.sub_diag. simpl.
      by intros [= <-].
Qed.

(** The loop on a window with exactly one matching entry at or after [pos]. *)
Lemma reorderNVArgs_split (name : string) (l1 pre : list NamedValue.t)
    (a : NamedValue.t) (post : list NamedValue.t) :
  Forall (fun x => nameMatches name x = false) pre ->
  nameMatches name a = true ->
  Forall (fun x => nameMatches name x = false) post ->
  reorderNVArgs (length l1) name (l1 ++ pre ++ a :: post) = l1 ++ a :: pre ++ post.
Proof.
  intros Hpre Ha Hpost. unfold reorderNVArgs.
  replace (length (l1 ++ pre ++ a :: post) - length l1)
    with (length pre + S (length post))
    by (rewrite !length_app; simpl; lia).
  rewrite reorderLoop_skip by done. simpl.
  rewrite reorderStep_split by done.
  apply reorderLoop_noop.
  replace (l1 ++ a :: pre ++ post) with ((l1 ++ a :: pre) ++ post)
    by (by rewrite <- (assoc app)).
  rewrite drop_app_length'; [done|]. rewrite length_app. simpl. lia.
Qed.

Lemma nameMatches_empty (a : NamedValue.t) : nameMatches "" a = false.
Proof. unfold nameMatches. by destruct (bool_decide (NamedValue.Name a = "")). Qed.

Lemma nameMatches_named (t : string) (a : NamedValue.t) :
  t <> "" -> nameMatches t a = bool_decide (NamedValue.Name a = t).
Proof.
  intros Ht. unfold nameMatches.
  repeat case_bool_decide; simpl; congruence.
Qed.

Lemma firstNamed_Some (t : string) (l : list NamedValue.t) :
  forall (i0 i : nat) (a : NamedValue.t),
    firstNamed t i0 l = Some (i, a) ->
    exists pre post,
      l = pre ++ a :: post /\ i = i0 + length pre /\ NamedValue.Name a = t
      /\ Forall (fun x => NamedValue.Name x <> t) pre.
Proof.
  induction l as [|x l IH]; intros i0 i a; simpl; [done|].
  case_bool_decide as Hx.
  - intros [= <- <-]. exists [], l. simpl. repeat split; [lia | done | constructor].
  - intros H. destruct (IH _ _ _ H) as (pre & post & -> & -> & Ha & Hpre).
    exists (x :: pre), post. simpl. repeat split; [lia | done | by constructor].
Qed.

Lemma firstNamed_None (t : string) (l : list NamedValue.t) :
  forall i0, firstNamed t i0 l = None -> Forall (fun x => NamedValue.Name x <> t) l.
Proof.
  induction l as [|x l IH]; intros i0; simpl; [constructor|].
  case_bool_decide as Hx; [done|]. intros H. constructor; [done | by eapply IH].
Qed.

Lemma Forall_not_named (t : string) (l : list NamedValue.t) :
  Forall (fun x => NamedValue.Name x <> t) l ->
  Forall (fun x => nameMatches t x = false) l.
Proof.
  intros H. eapply Forall_impl; [exact H|]. intros x Hx. unfold nameMatches.
  rewrite (bool_decide_eq_false_2 _ Hx). apply andb_false_r.
Qed.

Lemma filter_named_nil (t : string) (l : list NamedValue.t) :
  List.filter (fun a => bool_decide (NamedValue.Name a = t)) l = [] ->
  Forall (fun x => NamedValue.Name x <> t) l.
Proof.
  induction l as [|x l IH]; simpl; [constructor|].
  case_bool_decide as Hx; [done|]. intros H. constructor; auto.
Qed.

Lemma filter_not_named (t : string) (l : list NamedValue.t) :
  Forall (fun x => NamedValue.Name x <> t) l ->
  List.filter (fun a => bool_decide (NamedValue.Name a = t)) l = [].
Proof.
  induction 1 as [|x l Hx _ IH]; simpl; [done|].
  by rewrite (bool_decide_eq_false_2 _ Hx).
Qed.

(** The window seen from [p] when the scan finds a match. *)
Lemma firstNamed_window (p : nat) (t : string) (l : list NamedValue.t)
    (i : nat) (a : NamedValue.t) :
  firstNamed t p (drop p l) = Some (i, a) ->
  exists pre post,
    l = take p l ++ pre ++ a :: post /\ length (take p l) = p
    /\ i = p + length pre /\ NamedValue.Name a = t
    /\ Forall (fun x => NamedValue.Name x <> t) pre
    /\ namedFrom p t l
       = a :: List.filter (fun a => bool_decide (NamedValue.Name a = t)) post.
Proof.
  intros H. destruct (firstNamed_Some _ _ _ _ _ H) as (pre & post & Hd & Hi & Ha & Hpre).
  exists pre, post.
  assert (Hlen : p <= length l).
  { destruct (decide (p <= length l)) as [|Hn]; [done|].
    rewrite drop_ge in Hd by lia. by destruct pre. }
  repeat split; try done.
  - by rewrite <- Hd, take_drop.
  - rewrite length_take. lia.
  - unfold namedFrom. rewrite Hd, List.filter_app, (filter_not_named _ _ Hpre).
    simpl. by rewrite (bool_decide_eq_true_2 _ Ha).
Qed.

Lemma rotateTo_window (l1 pre : list NamedValue.t) (a : NamedValue.t)
    (post : list NamedValue.t) :
  rotateTo (length l1) (length l1 + length pre) a (l1 ++ pre ++ a :: post)
  = l1 ++ a :: pre ++ post.
Proof.
  unfold rotateTo. rewrite take_app_length, drop_app_length.
  replace (length l1 + length pre - length l1) with (length pre) by lia.
  rewrite take_app_length.
  replace (l1 ++ pre ++ a :: post) with ((l1 ++ pre ++ [a]) ++ post)
    by (by rewrite <- !(assoc app)).
  rewrite drop_app_length'; [done|]. rewrite !length_app. simpl. lia.
Qed.

Lemma reorderNVArgs_unique (p : nat) (t : string) (l : list NamedValue.t) :
  t <> "" ->
  length (namedFrom p t l) <= 1 ->
  reorderNVArgs p t l = rotateFirstNamed p t l.
Proof.
  intros Ht Hone. unfold rotateFirstNamed.
  destruct (firstNamed t p (drop p l)) as [[i a]|] eqn:Hfirst.
  - destruct (firstNamed_window _ _ _ _ _ Hfirst)
      as (pre & post & Hl & Hp & -> & Ha & Hpre & Hnamed).
    rewrite Hnamed in Hone. simpl in Hone.
    assert (Hpost : Forall (fun x => NamedValue.Name x <> t) post).
    { apply filter_named_nil.
      destruct (List.filter _ post); [done | simpl in Hone; lia]. }
    clear Hone Hfirst Hnamed. revert Hl Hp.
    generalize (take p l) as l1. intros l1 -> <-.
    rewrite rotateTo_window. apply reorderNVArgs_split.
    + by apply Forall_not_named.
    + rewrite nameMatches_named by done. by apply bool_decide_eq_true_2.
    + by apply Forall_not_named.
  - apply reorderLoop_noop, Forall_not_named. by eapply firstNamed_None.
Qed.

Lemma reorderNVArgs_empty_name (p : nat) (l : list NamedValue.t) :
  reorderNVArgs p "" l = l.
Proof.
  apply reorderLoop_noop, Forall_forall. intros a _. apply nameMatches_empty.
Qed.

(** One pass of the loop body either leaves the window alone or moves one
    entry from behind [pos] to [pos]. *)
Lemma reorderStep_cases (pos : nat) (name : string) (i : nat) (l : list NamedValue.t) :
  pos <= i ->
  reorderStep pos name i l = l
  \/ exists l1 mid tmp l2,
       l = l1 ++ mid ++ tmp :: l2 /\ length l1 = pos
       /\ reorderStep pos name i l = l1 ++ tmp :: mid ++ l2.
Proof.
  intros Hle. destruct (l !! i) as [tmp|] eqn:Hi;
    [|left; unfold reorderStep; by rewrite Hi].
  destruct (nameMatches name tmp) eqn:Hm;
    [|left; unfold reorderStep; by rewrite Hi, Hm].
  right. pose proof (lookup_lt_Some _ _ _ Hi) as Hlt.
  exists (take pos l), (take (i - pos) (drop pos l)), tmp, (drop (S i) l).
  assert (Hl : l = take pos l ++ take (i - pos) (drop pos l) ++ tmp :: drop (S i) l).
  { rewrite (assoc app), take_take_drop.
    replace (pos + (i - pos)) with i by lia. by rewrite take_drop_middle. }
  assert (Hl1 : length (take pos l) = pos) by (rewrite length_take; lia).
  assert (Hmid : length (take (i - pos) (drop pos l)) = i - pos)
    by (rewrite length_take, length_drop; lia).
  split; [exact Hl|]. split; [exact Hl1|].
  rewrite Hl at 1.
  replace i with (length (take pos l) + length (take (i - pos) (drop pos l))) at 1 by lia.
  rewrite <- Hl1 at 1. by apply reorderStep_split.
Qed.

Lemma reorderLoop_perm (pos : nat) (name : string) (cnt : nat) :
  forall (i : nat) (l : list NamedValue.t),
    pos <= i ->
    reorderLoop pos name cnt i l ≡ₚ l
    /\ take pos (reorderLoop pos name cnt i l) = take pos l.
Proof.
  induction cnt as [|cnt IH]; intros i l Hle; [done|].
  simpl. pose proof (reorderStep_cases pos name i l Hle) as Hstep.
  destruct (IH (S i) (reorderStep pos name i l)) as [Hperm Htake]; [lia|].
  rewrite Htake. split; [etrans; [exact Hperm|]|]; clear Hperm Htake.
  - destruct Hstep as [-> | (l1 & mid & tmp & l2 & Hl & Hl1 & ->)]; [done|].
    rewrite Hl. apply Permutation_app_head. by rewrite Permutation_middle.
  - destruct Hstep as [-> | (l1 & mid & tmp & l2 & Hl & Hl1 & ->)]; [done|].
    rewrite Hl, <- Hl1. by rewrite !take_app_length.
Qed.

Lemma reorderNVArgs_perm (pos : nat) (name : string) (l : list NamedValue.t) :
  reorderNVArgs pos name l ≡ₚ l.
Proof. by apply reorderLoop_perm. Qed.

Lemma reorderNVArgs_take (pos : nat) (name : string) (l : list NamedValue.t) :
  take pos (reorderNVArgs pos name l) = take pos l.
Proof. by apply reorderLoop_perm. Qed.

Lemma reorderNVArgs_length (pos : nat) (name : string) (l : list NamedValue.t) :
  length (reorderNVArgs pos name l) = length l.
Proof. apply Permutation_length, reorderNVArgs_perm. Qed.

(** C4, as the code has it. For a window with at most one entry named [t]
    at or after [p]: when [t] is empty nothing moves; otherwise the entry
    named [t] found by the scan from [p] is rotated to [p], the entries
    between moving one slot to the right.  Nothing moves when no entry
    carries the name or when the match is at [p] already.  The entries
    before [p] stay, and after the rotation the window without position [p]
    is the original without the position of the match. *)
Theorem reorderNVArgs_rotates_single (p : nat) (t : string) (l : list NamedValue.t) :
  length (namedFrom p t l) <= 1 ->
  reorderNVArgs p t l = (if bool_decide (t = "") then l else rotateFirstNamed p t l)
  /\ (namedFrom p t l = [] -> reorderNVArgs p t l = l)
  /\ (forall a, l !! p = Some a -> NamedValue.Name a = t -> reorderNVArgs p t l = l)
  /\ take p (reorderNVArgs p t l) = take p l
  /\ (forall i a, t <> "" -> firstNamed t p (drop p l) = Some (i, a) ->
        reorderNVArgs p t l !! p = Some a
        /\ delete p (reorderNVArgs p t l) = delete i l).
Proof.
  intros Hone.
  assert (Hmain : reorderNVArgs p t l
                  = if bool_decide (t = "") then l else rotateFirstNamed p t l).
  { case_bool_decide as Ht.
    - subst t. apply reorderNVArgs_empty_name.
    - by apply reorderNVArgs_unique. }
  split; [exact Hmain|]. split; [|split; [|split]].
  - intros Hnone. apply reorderLoop_noop, Forall_not_named.
    by apply filter_named_nil.
  - intros a Hp Ha. rewrite Hmain. case_bool_decide as Ht; [done|].
    unfold rotateFirstNamed.
    rewrite <- (take_drop_middle _ _ _ Hp) at 1.
    rewrite drop_app_length'; [|rewrite length_take; apply lookup_lt_Some in Hp; lia].
    simpl. rewrite (bool_decide_eq_true_2 _ Ha).
    unfold rotateTo. rewrite Nat.sub_diag. simpl. by apply take_drop_middle.
  - apply reorderNVArgs_take.
  - intros i a Ht Hfirst. rewrite Hmain, (bool_decide_eq_false_2 _ Ht).
    unfold rotateFirstNamed. rewrite Hfirst.
    destruct (firstNamed_window _ _ _ _ _ Hfirst)
      as (pre & post & Hl & Hp & -> & Ha & Hpre & Hnamed).
    clear Hone Hmain Hfirst Hnamed. revert Hl Hp.
    generalize (take p l) as l1. intros l1 -> <-.
    rewrite rotateTo_window. split.
    + rewrite lookup_app_r by lia. by rewrite Nat.sub_diag.
    + rewrite delete_middle.
      replace (l1 ++ pre ++ a :: post) with ((l1 ++ pre) ++ a :: post)
        by (by rewrite <- (assoc app)).
      replace (length l1 + length pre) with (length (l1 ++ pre))
        by (by rewrite length_app).
      by rewrite delete_middle, <- (assoc app).
Qed.

(** ** The steps of the binders on the caller's array *)

Lemma lookup_middle_here {A} (pre : list A) (a : A) (post : list A) :
  (pre ++ a :: post) !! length pre = Some a.
Proof. by apply list_lookup_middle. Qed.

Lemma insert_middle_here {A} (pre : list A) (a b : A) (post : list A) :
  <[length pre := b]> (pre ++ a :: post) = pre ++ b :: post.
Proof. rewrite insert_app_r_alt by lia. by rewrite Nat.sub_diag. Qed.

Lemma resolve_no_panic (fuel : nat) (v : value) (p : panic) :
  resolve fuel v <> Panic p.
Proof.
  intros H. pose proof (resolve_unwraps_sound fuel v) as Hs. by rewrite H in Hs.
Qed.

Lemma convertArg_Diverges (fuel : nat) (field : Field.t) (v : value) :
  convertArg fuel field v = Diverges -> resolve fuel v = OutOfFuel.
Proof.
  unfold convertArg. destruct (resolve fuel v) as [v'|e|p|] eqn:Hr; try done.
  - by destruct (Field.Convert field v').
  - by destruct (resolve_no_panic _ _ _ Hr).
Qed.

Lemma getArg_here (pre : list NamedValue.t) (a : NamedValue.t)
    (post : list NamedValue.t) (w : World) :
  getArg (length pre) (mkState (pre ++ a :: post) w)
  = (mkState (pre ++ a :: post) w, Ok a).
Proof. unfold getArg. simpl. by rewrite lookup_middle_here. Qed.

Lemma putValue_here (v : value) (pre : list NamedValue.t) (a : NamedValue.t)
    (post : list NamedValue.t) (w : World) :
  putValue (length pre) v (mkState (pre ++ a :: post) w)
  = (mkState (pre ++ NamedValue.setValue v a :: post) w, Ok tt).
Proof.
  unfold putValue. simpl. by rewrite lookup_middle_here, insert_middle_here.
Qed.

(** [convertInto] at the argument [a]: the slot takes what [convertArg]
    returned, also when it returned an error. *)
Lemma convertInto_here (fuel : nat) (field : Field.t) (pre : list NamedValue.t)
    (a : NamedValue.t) (post : list NamedValue.t) (w : World) :
  convertInto fuel field (length pre) (NamedValue.Value a) (mkState (pre ++ a :: post) w)
  = match convertArg fuel field (NamedValue.Value a) with
    | Diverges => (mkState (pre ++ a :: post) w, OutOfFuel)
    | Returns v (Some e) =>
        (mkState (pre ++ NamedValue.setValue v a :: post) w,
         Fail (ErrConversion (Field.String field) e))
    | Returns v None => (mkState (pre ++ NamedValue.setValue v a :: post) w, Ok v)
    end.
Proof.
  unfold convertInto. destruct (convertArg fuel field (NamedValue.Value a)) as [v [e|]|];
    [| |done]; unfold mbind, M_bind; by rewrite putValue_here.
Qed.

(** [primeLob] leaves the array alone; when [FetchNext] succeeds it agrees
    with [primeOne]. *)
Lemma primeLob_run (sz : Z) (v : value) (s : state) :
  exists w' r,
    primeLob sz v s = (mkState (nvargs s) w', r)
    /\ match r with
       | Ok sig => (w', sig) = primeOne sz v (world s)
       | Fail _ => True
       | Panic _ | OutOfFuel => False
       end.
Proof.
  destruct s as [nv w]. destruct v; simpl; try by eexists _, _.
  destruct (FetchNext sz l w) as [w' [e|]]; by eexists _, _.
Qed.

(** One argument of a batch: the slot keeps its Ordinal and Name; on
    success it holds the converted value and the LOB, if any, is primed. *)
Lemma execArg_run (fuel : nat) (sz : Z) (field : Field.t) (pre : list NamedValue.t)
    (a : NamedValue.t) (post : list NamedValue.t) (h : bool) (w : World) :
  exists a' w' r,
    execArg fuel sz field (length pre) h (mkState (pre ++ a :: post) w)
    = (mkState (pre ++ a' :: post) w', r)
    /\ NamedValue.key a' = NamedValue.key a
    /\ match r with
       | Ok h' =>
           converted fuel field a a'
           /\ w' = (primeOne sz (NamedValue.Value a') w).1
           /\ h' = owes (primeOne sz (NamedValue.Value a') w).2 || h
       | Fail _ => True
       | Panic _ => False
       | OutOfFuel => resolve fuel (NamedValue.Value a) = OutOfFuel
       end.
Proof.
  unfold execArg, mbind, M_bind. rewrite getArg_here.
  destruct (Field.Out field); [by eexists a, _, _|].
  destruct (isOutArg (NamedValue.Value a)); [by eexists a, _, _|].
  destruct (negb (bool_decide (NamedValue.Name a = ""))); [by eexists a, _, _|].
  rewrite convertInto_here.
  destruct (convertArg fuel field (NamedValue.Value a)) as [v [e|]|] eqn:Hconv.
  - by eexists (NamedValue.setValue v a), _, _.
  - destruct (primeLob_run sz v (mkState (pre ++ NamedValue.setValue v a :: post) w))
      as (w' & r & -> & Hr).
    destruct r as [sig|e|p|]; simpl in *; try done.
    + exists (NamedValue.setValue v a), w', (Ok (owes sig || h)).
      split; [by destruct sig as [[|]|]|].
      split; [done|]. simpl. rewrite <- Hr. simpl.
      split; [by exists v|]. done.
    + by eexists (NamedValue.setValue v a), _, _.
  - eexists a, _, _. split; [reflexivity|]. split; [done|].
    by eapply convertArg_Diverges.
Qed.

Lemma execRow_cons (fuel : nat) (sz : Z) (n i : nat) (f : Field.t)
    (fs : list Field.t) (j : nat) (h : bool) (s : state) :
  execRow fuel sz n i (f :: fs) j h s
  = match execArg fuel sz f (i * n + j) h s with
    | (s', Ok has) => execRow fuel sz n i fs (S j) has s'
    | (s', Fail e) => (s', Fail e)
    | (s', Panic p) => (s', Panic p)
    | (s', OutOfFuel) => (s', OutOfFuel)
    end.
Proof. reflexivity. Qed.

(** One row of a batch. *)
Lemma execRow_run (fuel : nat) (sz : Z) (n i : nat) (fs : list Field.t) :
  forall (j : nat) (pre row post : list NamedValue.t) (h : bool) (w : World),
    length pre = i * n + j ->
    length row = length fs ->
    exists row' w' r,
      execRow fuel sz n i fs j h (mkState (pre ++ row ++ post) w)
      = (mkState (pre ++ row' ++ post) w', r)
      /\ NamedValue.key <$> row' = NamedValue.key <$> row
      /\ match r with
         | Ok h' =>
             Forall3 (converted fuel) fs row row'
             /\ w' = primeWorld sz (NamedValue.Value <$> row') w
             /\ h' = existsb owes (primeSignals sz (NamedValue.Value <$> row') w) || h
         | Fail _ => True
         | Panic _ => False
         | OutOfFuel =>
             Exists (fun a => resolve fuel (NamedValue.Value a) = OutOfFuel) row
         end.
Proof.
  induction fs as [|f fs IH]; intros j pre row post h w Hpre Hrow.
  - destruct row; [|done]. exists [], w, (Ok h). simpl.
    repeat split. constructor.
  - destruct row as [|a row]; [done|]. simpl in Hrow.
    rewrite execRow_cons, <- Hpre. simpl app.
    destruct (execArg_run fuel sz f pre a (row ++ post) h w)
      as (a' & w1 & r1 & -> & Hkey & Hr1).
    destruct r1 as [h1|e|p|]; [| |done|].
    + destruct (IH (S j) (pre ++ [a']) row post h1 w1) as (row' & w' & r & Hrun & Hkeys & Hr);
        [rewrite length_app; simpl; lia | lia |].
      rewrite <- (assoc app) in Hrun. simpl in Hrun.
      exists (a' :: row'), w', r. split; [|split].
      * rewrite Hrun. by rewrite <- (assoc app).
      * by rewrite !fmap_cons, Hkey, Hkeys.
      * destruct Hr1 as (Hconv & -> & ->).
        destruct r as [h'|e|p|]; try done.
        -- destruct Hr as (Hall & -> & ->). simpl.
           split; [by constructor|]. split; [done|].
           by rewrite orb_assoc, (orb_comm (existsb _ _)).
        -- by apply Exists_cons_tl.
    + exists (a' :: row), w1, (Fail e). by rewrite !fmap_cons, Hkey.
    + exists (a' :: row), w1, OutOfFuel. rewrite !fmap_cons, Hkey.
      repeat split. by apply Exists_cons_hd.
Qed.

Lemma primeSignals_length (sz : Z) (vs : list value) :
  forall w, length (primeSignals sz vs w) = length vs.
Proof. induction vs as [|v vs IH]; intros w; simpl; [done | by rewrite IH]. Qed.

Lemma primeSignals_app (sz : Z) (vs1 vs2 : list value) :
  forall w,
    primeSignals sz (vs1 ++ vs2) w
    = primeSignals sz vs1 w ++ primeSignals sz vs2 (primeWorld sz vs1 w).
Proof. induction vs1 as [|v vs1 IH]; intros w; simpl; [done | by rewrite IH]. Qed.

Lemma primeWorld_app (sz : Z) (vs1 vs2 : list value) :
  forall w, primeWorld sz (vs1 ++ vs2) w = primeWorld sz vs2 (primeWorld sz vs1 w).
Proof. induction vs1 as [|v vs1 IH]; intros w; simpl; [done | by rewrite IH]. Qed.

Lemma rowOwes_here (sigs1 sigs2 : list (option bool)) (n : nat) :
  length sigs1 = n ->
  rowOwes (sigs1 ++ sigs2) n 0 = existsb owes sigs1.
Proof.
  intros <-. unfold rowOwes. by rewrite Nat.mul_0_l, drop_0, take_app_length.
Qed.

Lemma rowOwes_later (sigs1 sigs2 : list (option bool)) (n m : nat) :
  length sigs1 = n ->
  rowOwes (sigs1 ++ sigs2) n (S m) = rowOwes sigs2 n m.
Proof.
  intros <-. unfold rowOwes.
  replace (S m * length sigs1) with (length sigs1 + m * length sigs1) by lia.
  by rewrite <- drop_drop, drop_app_length.
Qed.

Lemma execRows_S (fuel : nat) (sz : Z) (fs : list Field.t) (n numRow c i : nat)
    (recs : list nat) (s : state) :
  execRows fuel sz fs n numRow (S c) i recs s
  = match execRow fuel sz n i fs 0 false s with
    | (s', Ok has) =>
        execRows fuel sz fs n numRow c (S i)
          (if has || bool_decide (i = numRow - 1) then recs ++ [i] else recs) s'
    | (s', Fail e) => (s', Fail e)
    | (s', Panic p) => (s', Panic p)
    | (s', OutOfFuel) => (s', OutOfFuel)
    end.
Proof. reflexivity. Qed.

(** The rows of a batch from row [i] on. *)
Lemma execRows_run (fuel : nat) (sz : Z) (fs : list Field.t) (numRow : nat) :
  0 < length fs ->
  forall (cnt i : nat) (recs : list nat) (pre rest : list NamedValue.t) (w : World),
    length pre = i * length fs ->
    length rest = cnt * length fs ->
    exists rest' w' r,
      execRows fuel sz fs (length fs) numRow cnt i recs (mkState (pre ++ rest) w)
      = (mkState (pre ++ rest') w', r)
      /\ NamedValue.key <$> rest' = NamedValue.key <$> rest
      /\ match r with
         | Ok recs' =>
             w' = primeWorld sz (NamedValue.Value <$> rest') w
             /\ recs'
                = recs ++ List.filter
                    (fun i' =>
                       rowOwes (primeSignals sz (NamedValue.Value <$> rest') w)
                               (length fs) (i' - i)
                       || bool_decide (i' = numRow - 1))
                    (seq i cnt)
             /\ (forall k a, rest !! k = Some a ->
                   exists f a', fs !! (k mod length fs) = Some f
                                /\ rest' !! k = Some a' /\ converted fuel f a a')
         | Fail _ => True
         | Panic _ => False
         | OutOfFuel =>
             Exists (fun a => resolve fuel (NamedValue.Value a) = OutOfFuel) rest
         end.
Proof.
  intros Hn. set (n := length fs) in *.
  induction cnt as [|c IH]; intros i recs pre rest w Hpre Hrest.
  - destruct rest; [|done]. exists [], w, (Ok recs). simpl.
    rewrite !app_nil_r. repeat split. intros k a. by rewrite lookup_nil.
  - rewrite execRows_S.
    rewrite <- (take_drop n rest).
    set (row := take n rest). set (rest2 := drop n rest).
    assert (Hrow : length row = n) by (unfold row; rewrite length_take; lia).
    assert (Hrest2 : length rest2 = c * n) by (unfold rest2; rewrite length_drop; lia).
    clearbody row rest2. clear Hrest rest.
    destruct (execRow_run fuel sz n i fs 0 pre row rest2 false w)
      as (row' & w1 & r1 & -> & Hkey1 & Hr1); [lia | done |].
    assert (Hrow' : length row' = n).
    { rewrite <- Hrow, <- (length_fmap NamedValue.key row'), Hkey1.
      by rewrite length_fmap. }
    destruct r1 as [h|e|p|]; [| |done|].
    + destruct Hr1 as (Hconv & -> & ->). rewrite orb_false_r.
      rewrite (app_assoc pre row' rest2).
      destruct (IH (S i)
                  (if existsb owes (primeSignals sz (NamedValue.Value <$> row') w)
                      || bool_decide (i = numRow - 1)
                   then recs ++ [i] else recs)
                  (pre ++ row') rest2
                  (primeWorld sz (NamedValue.Value <$> row') w))
        as (rest2' & w' & r & -> & Hkey2 & Hr); [rewrite length_app; lia | done |].
      exists (row' ++ rest2'), w', r. rewrite (app_assoc pre row' rest2').
      split; [done|]. split; [by rewrite !fmap_app, Hkey1, Hkey2|].
      destruct r as [recs'|e|p|]; try done.
      * destruct Hr as (-> & -> & Hpoint).
        assert (Hsig : length (primeSignals sz (NamedValue.Value <$> row') w) = n)
          by (by rewrite primeSignals_length, length_fmap).
        rewrite fmap_app, primeWorld_app, primeSignals_app.
        split; [done|]. split.
        -- simpl. rewrite Nat.sub_diag, rowOwes_here by done.
           assert (Hext :
             List.filter
               (fun i' =>
                  rowOwes (primeSignals sz (NamedValue.Value <$> row') w
                           ++ primeSignals sz (NamedValue.Value <$> rest2')
                                (primeWorld sz (NamedValue.Value <$> row') w))
                          n (i' - i)
                  || bool_decide (i' = numRow - 1)) (seq (S i) c)
             = List.filter
                 (fun i' =>
                    rowOwes (primeSignals sz (NamedValue.Value <$> rest2')
                               (primeWorld sz (NamedValue.Value <$> row') w))
                            n (i' - S i)
                    || bool_decide (i' = numRow - 1)) (seq (S i) c)).
           { apply List.filter_ext_in. intros i' Hi'. apply in_seq in Hi'.
             replace (i' - i) with (S (i' - S i)) by lia.
             by rewrite rowOwes_later. }
           rewrite Hext.
           destruct (existsb owes _ || bool_decide (i = numRow - 1));
             [by rewrite <- (assoc app) | done].
        -- intros k a Hk. destruct (decide (k < n)) as [Hlt|Hge].
           ++ rewrite lookup_app_l in Hk by lia.
              destruct (Forall3_lookup_m _ _ _ _ _ _ Hconv Hk) as (f & a' & Hf & Ha' & Hc).
              exists f, a'. rewrite Nat.mod_small by done.
              rewrite lookup_app_l by lia. done.
           ++ rewrite lookup_app_r in Hk by lia. rewrite Hrow in Hk.
              destruct (Hpoint _ _ Hk) as (f & a' & Hf & Ha' & Hc).
              exists f, a'. split; [|split; [|done]].
              ** rewrite <- Hf. f_equal.
                 replace k with ((k - n) + 1 * n) at 1 by lia.
                 by rewrite Nat.Div0.mod_add.
              ** rewrite lookup_app_r by lia. by rewrite Hrow'.
      * by apply Exists_app; right.
    + exists (row' ++ rest2), w1, (Fail e). rewrite !fmap_app, Hkey1. done.
    + exists (row' ++ rest2), w1, OutOfFuel. rewrite !fmap_app, Hkey1.
      repeat split. by apply Exists_app; left.
Qed.

(** ** ExecBatcher *)

Lemma convertExecArgs_nonempty (fuel : nat) (fs : list Field.t) (sz : Z) (s : state) :
  fs <> [] ->
  convertExecArgs fuel fs sz s
  = if negb (length (nvargs s) mod length fs =? 0)
    then (s, Fail (ErrNotMultiple (length (nvargs s)) (length fs)))
    else execRows fuel sz fs (length fs) (length (nvargs s) / length fs)
           (length (nvargs s) / length fs) 0 [] s.
Proof. intros Hfs. unfold convertExecArgs. by destruct fs. Qed.

(** The whole of [convertExecArgs] on a non-empty field list. *)
Lemma convertExecArgs_run (fuel : nat) (fs : list Field.t) (sz : Z)
    (A : list NamedValue.t) (w : World) :
  fs <> [] ->
  exists A' w' r,
    convertExecArgs fuel fs sz (mkState A w) = (mkState A' w', r)
    /\ NamedValue.key <$> A' = NamedValue.key <$> A
    /\ match r with
       | Ok recs =>
           length A = (length A / length fs) * length fs
           /\ w' = primeWorld sz (NamedValue.Value <$> A') w
           /\ recs = addLobDataRows (primeSignals sz (NamedValue.Value <$> A') w)
                       (length fs) (length A / length fs)
           /\ (forall k a, A !! k = Some a ->
                 exists f a', fs !! (k mod length fs) = Some f
                              /\ A' !! k = Some a' /\ converted fuel f a a')
       | Fail e =>
           length A mod length fs <> 0 -> A' = A /\ w' = w
           /\ e = ErrNotMultiple (length A) (length fs)
       | Panic _ => False
       | OutOfFuel =>
           Exists (fun a => resolve fuel (NamedValue.Value a) = OutOfFuel) A
       end.
Proof.
  intros Hfs. rewrite convertExecArgs_nonempty by done. simpl nvargs.
  assert (Hn : 0 < length fs) by (destruct fs; simpl; [done | lia]).
  destruct (length A mod length fs =? 0) eqn:Hmod; simpl negb; cbv iota.
  - apply Nat.eqb_eq in Hmod.
    assert (Hlen : length A = length A / length fs * length fs).
    { pose proof (Nat.div_mod_eq (length A) (length fs)). lia. }
    destruct (execRows_run fuel sz fs (length A / length fs) Hn
                (length A / length fs) 0 [] [] A w)
      as (A' & w' & r & Hrun & Hkey & Hr); [done | done |].
    simpl in Hrun. exists A', w', r. split; [done|]. split; [done|].
    destruct r as [recs|e|p|]; try done.
    destruct Hr as (-> & -> & Hpoint). repeat split; try done.
    unfold addLobDataRows. apply List.filter_ext. intros i.
    by rewrite Nat.sub_0_r.
  - apply Nat.eqb_neq in Hmod. by exists A, w, (Fail (ErrNotMultiple (length A) (length fs))).
Qed.

Lemma filter_seq_sorted (P : nat -> bool) (c : nat) :
  forall i,
    StronglySorted lt (List.filter P (seq i c))
    /\ Forall (fun x => i <= x) (List.filter P (seq i c)).
Proof.
  induction c as [|c IH]; intros i; simpl; [by split; constructor|].
  destruct (IH (S i)) as [Hs Hall].
  assert (Hall' : Forall (fun x => i < x) (List.filter P (seq (S i) c))).
  { eapply Forall_impl; [exact Hall|]. simpl. lia. }
  destruct (P i).
  - split; constructor; [done | done | lia |].
    eapply Forall_impl; [exact Hall'|]. simpl. lia.
  - split; [done|]. eapply Forall_impl; [exact Hall'|]. simpl. lia.
Qed.

(** What section 4.7 promises of its own wording of the result. *)
Lemma addLobDataRows_spec (sigs : list (option bool)) (n r : nat) :
  StronglySorted lt (addLobDataRows sigs n r)
  /\ (1 <= r -> last (addLobDataRows sigs n r) = Some (r - 1))
  /\ (forall i, i ∈ addLobDataRows sigs n r
                <-> i < r /\ (rowOwes sigs n i = true \/ i = r - 1)).
Proof.
  unfold addLobDataRows. split; [apply filter_seq_sorted|]. split.
  - intros Hr. destruct r as [|r']; [lia|].
    rewrite seq_S, List.filter_app. simpl.
    replace (r' - 0) with r' by lia.
    rewrite (bool_decide_eq_true_2 (r' = r')) by done.
    rewrite orb_true_r. by rewrite last_snoc.
  - intros i. rewrite list_elem_of_In, List.filter_In, in_seq.
    rewrite orb_true_iff, bool_decide_eq_true. simpl. intuition lia.
Qed.

(** C2, as the code has it. For a batch of [r >= 1] rows that
    [convertExecArgs] accepts, the returned rows are strictly increasing,
    end with [r - 1], and hold a row exactly when a LOB of that row did not
    signal IsLastData when primed, or the row is the last one.  The signals
    are those of priming the converted arguments in order, from the LOB
    sources as they were at the call; each argument is converted by the
    field of its column. *)
Theorem convertExecArgs_addLobDataRecs (fuel : nat) (fs : list Field.t) (sz : Z)
    (A : list NamedValue.t) (w : World) (A' : list NamedValue.t) (w' : World)
    (recs : list nat) (r : nat) :
  length A = r * length fs ->
  1 <= r ->
  convertExecArgs fuel fs sz (mkState A w) = (mkState A' w', Ok recs) ->
  StronglySorted lt recs
  /\ last recs = Some (r - 1)
  /\ (forall i,
        i ∈ recs
        <-> i < r
            /\ (rowOwes (primeSignals sz (NamedValue.Value <$> A') w) (length fs) i = true
                \/ i = r - 1))
  /\ recs = addLobDataRows (primeSignals sz (NamedValue.Value <$> A') w) (length fs) r
  /\ (forall k a, A !! k = Some a ->
        exists f a', fs !! (k mod length fs) = Some f
                     /\ A' !! k = Some a' /\ converted fuel f a a').
Proof.
  intros Hlen Hr Hrun.
  assert (Hfs : fs <> []).
  { intros ->. unfold convertExecArgs in Hrun. simpl in Hrun. congruence. }
  destruct (convertExecArgs_run fuel fs sz A w Hfs) as (A2 & w2 & r2 & Hrun2 & _ & Hr2).
  rewrite Hrun in Hrun2. injection Hrun2 as <- <- <-.
  destruct Hr2 as (_ & _ & Hrecs & Hpoint).
  assert (Hdiv : length A / length fs = r).
  { rewrite Hlen. apply Nat.div_mul. by destruct fs. }
  rewrite Hdiv in Hrecs.
  destruct (addLobDataRows_spec
              (primeSignals sz (NamedValue.Value <$> A') w) (length fs) r)
    as (Hsorted & Hlast & Hmem).
  rewrite <- Hrecs in Hsorted, Hlast, Hmem.
  split; [exact Hsorted|]. split; [by apply Hlast|]. split; [exact Hmem|].
  by split.
Qed.

(** C3, as the code has it. On a non-empty field list, an argument count
    that is not a multiple of the field count is refused with an error that
    carries both counts, the array untouched; the call succeeds only on a
    multiple; and the empty argument list, the multiple zero, is accepted
    as a batch of no rows. *)
Theorem convertExecArgs_arity (fuel : nat) (fs : list Field.t) (sz : Z)
    (A : list NamedValue.t) (w : World) :
  fs <> [] ->
  (length A mod length fs <> 0 ->
     convertExecArgs fuel fs sz (mkState A w)
     = (mkState A w, Fail (ErrNotMultiple (length A) (length fs))))
  /\ (forall s' recs,
        convertExecArgs fuel fs sz (mkState A w) = (s', Ok recs) ->
        exists r, length A = r * length fs)
  /\ convertExecArgs fuel fs sz (mkState [] w) = (mkState [] w, Ok []).
Proof.
  intros Hfs. split; [|split].
  - intros Hmod. rewrite convertExecArgs_nonempty by done. simpl nvargs.
    by rewrite (proj2 (Nat.eqb_neq _ _) Hmod).
  - intros s' recs Hrun.
    destruct (convertExecArgs_run fuel fs sz A w Hfs) as (A2 & w2 & r2 & Hrun2 & _ & Hr2).
    rewrite Hrun in Hrun2. injection Hrun2 as -> <-.
    destruct Hr2 as (Hlen & _). by eexists.
  - rewrite convertExecArgs_nonempty by done. simpl nvargs. simpl length.
    by rewrite Nat.Div0.mod_0_l, Nat.Div0.div_0_l.
Qed.


(** ** Frames: what the binders leave of the caller's array *)

#[local] Instance keysKept_preorder : PreOrder keysKept.
Proof.
  split; [done|]. intros l1 l2 l3 H12 H23. unfold keysKept in *. congruence.
Qed.

Lemma keysKept_names (l l' : list NamedValue.t) :
  keysKept l l' ->
  Forall (fun a => NamedValue.Name a = "") l ->
  Forall (fun a => NamedValue.Name a = "") l'.
Proof.
  unfold keysKept. revert l'.
  induction l as [|a l IH]; intros [|a' l'] Hk Hall; try done.
  inversion Hall as [|? ? Ha Hl]; subst. injection Hk as Hkey Hrest.
  constructor; [|by apply IH].
  unfold NamedValue.key in Hkey. congruence.
Qed.

#[local] Instance callFrame_preorder (n : nat) : PreOrder (callFrame n).
Proof.
  split.
  - intros l. by repeat split.
  - intros l1 l2 l3 (Hp12 & Hd12 & Hk12) (Hp23 & Hd23 & Hk23). repeat split.
    + by rewrite Hp23.
    + congruence.
    + intros Hall. specialize (Hk12 Hall).
      etrans; [exact Hk12|]. apply Hk23. by eapply keysKept_names.
Qed.

Section Preserves.
Context (R : relation (list NamedValue.t)) `{!PreOrder R}.

Lemma preserves_ret {A} (a : A) : preserves R (mret a).
Proof. intros s. simpl. reflexivity. Qed.

Lemma preserves_fail {A} (e : error) : preserves R (fail (A := A) e).
Proof. intros s. simpl. reflexivity. Qed.

Lemma preserves_getArg (k : nat) : preserves R (getArg k).
Proof. intros s. unfold getArg. destruct (nvargs s !! k); simpl; reflexivity. Qed.

Lemma preserves_primeLob (sz : Z) (v : value) : preserves R (primeLob sz v).
Proof.
  intros s. destruct (primeLob_run sz v s) as (w' & r & -> & _). simpl. reflexivity.
Qed.

Lemma preserves_bind {A B} (m : M A) (f : A -> M B) :
  preserves R m -> (forall a, preserves R (f a)) -> preserves R (m ≫= f).
Proof.
  intros Hm Hf s. specialize (Hm s). unfold mbind, M_bind.
  destruct (m s) as [s' [a|e|p|]]; simpl in *; try done.
  etrans; [exact Hm|]. apply Hf.
Qed.

Lemma preserves_convertInto (fuel : nat) (field : Field.t) (k : nat) (arg : value) :
  (forall v, preserves R (putValue k v)) ->
  preserves R (convertInto fuel field k arg).
Proof.
  intros Hput. unfold convertInto.
  destruct (convertArg fuel field arg) as [v [e|]|].
  - apply preserves_bind; [done|]. intros _. apply preserves_fail.
  - apply preserves_bind; [done|]. intros _. apply preserves_ret.
  - intros s. simpl. reflexivity.
Qed.

End Preserves.

Lemma putValue_keysKept (k : nat) (v : value) : preserves keysKept (putValue k v).
Proof.
  intros s. unfold putValue. destruct (nvargs s !! k) as [a|] eqn:Hk; simpl; [|done].
  unfold keysKept. rewrite list_fmap_insert. apply list_insert_id.
  by rewrite list_lookup_fmap, Hk.
Qed.

Lemma putValue_callFrame (n k : nat) (v : value) :
  k < n -> preserves (callFrame n) (putValue k v).
Proof.
  intros Hk s. pose proof (putValue_keysKept k v s) as Hkeys.
  unfold putValue in *. destruct (nvargs s !! k) as [a|]; simpl in *; [|done].
  repeat split; [by rewrite Hkeys | by apply drop_insert_lt | done].
Qed.

Lemma reorderWindow_callFrame (n i : nat) (name : string) :
  preserves (callFrame n) (reorderWindow n i name).
Proof.
  intros s. unfold reorderWindow. simpl. set (l := nvargs s). repeat split.
  - rewrite fmap_app, reorderNVArgs_perm, <- fmap_app. by rewrite take_drop.
  - destruct (decide (n <= length l)) as [Hle|Hgt].
    + apply drop_app_length'. rewrite reorderNVArgs_length, length_take. lia.
    + rewrite (drop_ge l) by lia. rewrite app_nil_r. apply drop_ge.
      rewrite reorderNVArgs_length, length_take. lia.
  - intros Hall. unfold keysKept. f_equal.
    transitivity (take n l ++ drop n l); [|apply take_drop]. f_equal.
    apply reorderLoop_noop. apply Forall_drop, Forall_take.
    eapply Forall_impl; [exact Hall|]. intros a Ha. unfold nameMatches.
    by rewrite (bool_decide_eq_true_2 _ Ha).
Qed.

(** One step through the structure of a binder. *)
Ltac frame_step :=
  first [ apply preserves_ret | apply preserves_fail | apply preserves_getArg
        | apply preserves_primeLob | apply preserves_bind; [| |intros ?] ];
  try exact _.

Lemma queryFields_keysKept (fuel : nat) (sz : Z) (fs : list Field.t) :
  forall i, preserves keysKept (queryFields fuel sz fs i).
Proof.
  induction fs as [|f fs IH]; intros i; cbn [queryFields]; [frame_step|].
  frame_step; [frame_step|].
  repeat (case_match; [frame_step|]).
  frame_step.
  - apply preserves_convertInto; [exact _ | apply putValue_keysKept].
  - frame_step; [frame_step | done].
Qed.

Lemma callIn_callFrame (n : nat) (fuel : nat) (sz : Z) (field : Field.t) (i : nat)
    (nvarg : NamedValue.t) (out : option (value * bool)) (ca : callArgs) :
  i < n ->
  preserves (callFrame n) (callIn fuel sz field i nvarg out ca).
Proof.
  intros Hi. unfold callIn. frame_step.
  - destruct out as [[dest in_]|].
    + destruct (negb in_); [frame_step|].
      destruct (convertArg fuel field dest) as [v [e|]|];
        [frame_step | frame_step | by intros s].
    + frame_step; [|frame_step].
      apply preserves_convertInto; [exact _ | intros v; by apply putValue_callFrame].
  - repeat (frame_step; [frame_step|]). frame_step.
Qed.

Lemma callOut_callFrame (n : nat) (field : Field.t) (i : nat)
    (out : option (value * bool)) (ca : callArgs) :
  preserves (callFrame n) (callOut field i out ca).
Proof.
  unfold callOut. destruct out as [[dest in_]|]; [|frame_step].
  destruct (isRows dest); [frame_step|].
  frame_step; frame_step.
Qed.

Lemma callField_callFrame (fuel : nat) (sz : Z) (fs : list Field.t) (i : nat)
    (field : Field.t) (ca : callArgs) :
  i < length fs ->
  preserves (callFrame (length fs)) (callField fuel sz fs i field ca).
Proof.
  intros Hi. unfold callField.
  frame_step; [apply reorderWindow_callFrame|].
  frame_step; [frame_step|].
  case_match; [frame_step|].
  apply preserves_bind; [exact _ | | intros [out' ca']].
  - destruct (Field.In field); [by apply callIn_callFrame | frame_step].
  - destruct (Field.Out field); [apply callOut_callFrame | frame_step].
Qed.

Lemma callFields_callFrame (fuel : nat) (sz : Z) (fs : list Field.t) :
  forall (rest : list Field.t) (i : nat) (ca : callArgs),
    i + length rest <= length fs ->
    preserves (callFrame (length fs)) (callFields fuel sz fs rest i ca).
Proof.
  induction rest as [|f rest IH]; intros i ca Hi; cbn [callFields]; [frame_step|].
  simpl in Hi. frame_step; [apply callField_callFrame; lia|].
  apply IH. lia.
Qed.

Lemma tableOutputArgs_same (R : relation (list NamedValue.t)) `{!PreOrder R} (cnt : nat) :
  forall (i : nat) (ca : callArgs), preserves R (tableOutputArgs cnt i ca).
Proof.
  induction cnt as [|c IH]; intros i ca; cbn [tableOutputArgs]; [frame_step|].
  frame_step; [frame_step|].
  destruct (NamedValue.Value _); try frame_step.
  destruct (isRows _); [apply IH | frame_step].
Qed.

Lemma convertCallArgs_callFrame (fuel : nat) (fs : list Field.t) (sz : Z) :
  preserves (callFrame (length fs)) (convertCallArgs fuel fs sz).
Proof.
  intros s. unfold convertCallArgs.
  destruct (length (nvargs s) <? length fs); [simpl; reflexivity|].
  apply (preserves_bind (callFrame (length fs))).
  - by apply callFields_callFrame.
  - intros ca. apply tableOutputArgs_same. exact _.
Qed.

(** ** CallClassifier *)

Lemma yields_ret {A} (a : A) (Q : A -> Prop) : Q a -> yields (mret a) Q.
Proof. intros Ha s s' a' [= _ <-]. exact Ha. Qed.

Lemma yields_fail {A} (e : error) (Q : A -> Prop) : yields (fail e) Q.
Proof. by intros s s' a. Qed.

Lemma yields_bind {A B} (m : M A) (f : A -> M B) (Q1 : A -> Prop) (Q2 : B -> Prop) :
  yields m Q1 -> (forall a, Q1 a -> yields (f a) Q2) -> yields (m ≫= f) Q2.
Proof.
  intros Hm Hf s s' b. unfold mbind, M_bind.
  destruct (m s) as [s1 [a|e|p|]] eqn:Hrun; try done.
  intros Hb. eapply Hf; [|exact Hb]. by eapply Hm.
Qed.

Lemma yields_true {A} (m : M A) : yields m (fun _ => True).
Proof. by intros s s' a _. Qed.

Lemma callArgsGrow_nil (ca : callArgs) : callArgsGrow [] [] ca ca.
Proof. unfold callArgsGrow. rewrite !app_nil_r. simpl. by rewrite !Nat.add_0_r. Qed.

Lemma callArgsGrow_trans (ins1 outs1 ins2 outs2 : list Field.t) (ca1 ca2 ca3 : callArgs) :
  callArgsGrow ins1 outs1 ca1 ca2 ->
  callArgsGrow ins2 outs2 ca2 ca3 ->
  callArgsGrow (ins1 ++ ins2) (outs1 ++ outs2) ca1 ca3.
Proof.
  intros (Hi1 & Ho1 & Hia1 & Hoa1) (Hi2 & Ho2 & Hia2 & Hoa2). unfold callArgsGrow.
  rewrite Hi2, Hi1, Ho2, Ho1, Hia2, Hia1, Hoa2, Hoa1, !length_app.
  rewrite <- !(assoc app). repeat split; lia.
Qed.

Lemma callIn_yields (fuel : nat) (sz : Z) (field : Field.t) (i : nat)
    (nvarg : NamedValue.t) (out : option (value * bool)) (ca : callArgs) :
  yields (callIn fuel sz field i nvarg out ca)
         (fun r => callArgsGrow [field] [] ca r.2).
Proof.
  unfold callIn.
  eapply yields_bind; [apply yields_true|]. intros out' _.
  eapply yields_bind; [apply yields_true|]. intros cur _.
  eapply yields_bind; [apply yields_true|]. intros _ _.
  eapply yields_bind; [apply yields_true|]. intros cur' _.
  apply yields_ret. unfold callArgsGrow. simpl.
  rewrite length_app, app_nil_r. simpl. repeat split; lia.
Qed.

Lemma callOut_yields (field : Field.t) (i : nat) (out : option (value * bool))
    (ca : callArgs) :
  yields (callOut field i out ca) (callArgsGrow [] [field] ca).
Proof.
  unfold callOut. destruct out as [[dest in_]|]; [|apply yields_fail].
  destruct (isRows dest); [apply yields_fail|].
  eapply yields_bind; [apply yields_true|]. intros cur _.
  apply yields_ret. unfold callArgsGrow. simpl.
  rewrite length_app, app_nil_r. simpl. repeat split; lia.
Qed.

Lemma callField_yields (fuel : nat) (sz : Z) (fs : list Field.t) (i : nat)
    (field : Field.t) (ca : callArgs) :
  yields (callField fuel sz fs i field ca)
         (callArgsGrow (List.filter Field.In [field]) (List.filter Field.Out [field]) ca).
Proof.
  unfold callField.
  eapply yields_bind; [apply yields_true|]. intros _ _.
  eapply yields_bind; [apply yields_true|]. intros nvarg _.
  case_match; [apply yields_fail|].
  eapply (yields_bind _ _
            (fun r => callArgsGrow (List.filter Field.In [field]) [] ca r.2)).
  - simpl. destruct (Field.In field); [apply callIn_yields|].
    apply yields_ret. apply callArgsGrow_nil.
  - intros [out' ca'] Hin. simpl in *.
    destruct (Field.Out field).
    + intros s s' ca'' Hrun.
      pose proof (callOut_yields field i out' ca' s s' ca'' Hrun) as Hout.
      pose proof (callArgsGrow_trans _ _ _ _ _ _ _ Hin Hout) as Hboth.
      by rewrite app_nil_r in Hboth.
    + by apply yields_ret.
Qed.

Lemma callFields_yields (fuel : nat) (sz : Z) (fs : list Field.t) :
  forall (rest : list Field.t) (i : nat) (ca : callArgs),
    yields (callFields fuel sz fs rest i ca)
           (callArgsGrow (List.filter Field.In rest) (List.filter Field.Out rest) ca).
Proof.
  induction rest as [|f rest IH]; intros i ca; cbn [callFields].
  - apply yields_ret. apply callArgsGrow_nil.
  - eapply yields_bind; [apply callField_yields|]. intros ca' Hstep.
    intros s s' ca'' Hrun. pose proof (IH _ _ _ _ _ Hrun) as Hrest.
    pose proof (callArgsGrow_trans _ _ _ _ _ _ _ Hstep Hrest) as Hboth.
    change (f :: rest) with ([f] ++ rest). by rewrite !List.filter_app.
Qed.

(** The [isOut] branch of the [field.In()] block writes nothing to the
    array and reads nothing from the LOB sources: the converted Dest goes
    to the local [out] only. *)
Lemma callIn_out_wrapper (fuel : nat) (sz : Z) (field : Field.t) (i : nat)
    (nvarg : NamedValue.t) (name : string) (dest v : value) (ca : callArgs) (s : state) :
  nvargs s !! i = Some nvarg ->
  NamedValue.Value nvarg = VOut name dest true ->
  convertArg fuel field dest = Returns v None ->
  callIn fuel sz field i nvarg (Some (dest, true)) ca s
  = (s, Ok (Some (v, true),
            mkCallArgs (inFields ca ++ [field]) (outFields ca)
                       (inArgs ca ++ [nvarg]) (outArgs ca))).
Proof.
  intros Hi Hval Hconv. unfold callIn, mbind, M_bind, getArg. simpl.
  rewrite Hconv. simpl. rewrite Hi, Hval. simpl. by rewrite Hi.
Qed.

Lemma firstNonCursor_None (l : list NamedValue.t) :
  forall i, firstNonCursor i l = None <-> Forall (fun a => isCursorOut a = true) l.
Proof.
  induction l as [|a l IH]; intros i; simpl; [by split; [constructor|]|].
  destruct (isCursorOut a) eqn:Ha.
  - rewrite IH. split; [by constructor | by inversion 1].
  - split; [done|]. inversion 1; congruence.
Qed.

Lemma firstNonCursor_Some (l : list NamedValue.t) :
  forall i k a,
    firstNonCursor i l = Some (k, a) ->
    i <= k /\ l !! (k - i) = Some a /\ isCursorOut a = false.
Proof.
  induction l as [|b l IH]; intros i k a; simpl; [done|].
  destruct (isCursorOut b) eqn:Hb.
  - intros H. destruct (IH _ _ _ H) as (Hle & Hk & Ha).
    split; [lia|]. split; [|done].
    replace (k - i) with (S (k - S i)) by lia. done.
  - intros [= <- <-]. rewrite Nat.sub_diag. by repeat split.
Qed.

(** The table-output loop: it reads, never writes; it stops with the error
    of the first argument that is no cursor output, and otherwise appends
    every argument to outArgs. *)
Lemma tableOutputArgs_run (cnt : nat) :
  forall (i : nat) (ca : callArgs) (s : state),
    i + cnt = length (nvargs s) ->
    tableOutputArgs cnt i ca s
    = (s, match firstNonCursor i (drop i (nvargs s)) with
          | Some (k, a) => Fail (trailingError k a)
          | None =>
              Ok (mkCallArgs (inFields ca) (outFields ca) (inArgs ca)
                             (outArgs ca ++ drop i (nvargs s)))
          end).
Proof.
  induction cnt as [|c IH]; intros i ca s Hlen.
  - rewrite drop_ge by lia. simpl. rewrite app_nil_r. by destruct ca.
  - destruct (lookup_lt_is_Some_2 (nvargs s) i) as [a Ha]; [lia|].
    rewrite (drop_S _ _ _ Ha). cbn [tableOutputArgs firstNonCursor].
    unfold mbind, M_bind, getArg. rewrite Ha.
    unfold isCursorOut, trailingError.
    destruct (NamedValue.Value a) as [| | |name dest in_| | | | |] eqn:Hv;
      simpl; rewrite ?Hv; try done.
    destruct (isRows dest); simpl; rewrite ?Hv; [|done].
    rewrite IH by lia. simpl. by rewrite <- (app_assoc (outArgs ca) [a]).
Qed.

Lemma callFrame_length (n : nat) (l l' : list NamedValue.t) :
  callFrame n l l' -> length l' = length l.
Proof.
  intros (Hperm & _). apply Permutation_length in Hperm.
  by rewrite !length_fmap in Hperm.
Qed.

(** [convertCallArgs] as its two loops, the second one in closed form. *)
Lemma convertCallArgs_run (fuel : nat) (fs : list Field.t) (sz : Z) (s : state) :
  convertCallArgs fuel fs sz s
  = if length (nvargs s) <? length fs
    then (s, Fail (ErrNumArgs (length (nvargs s)) (length fs)))
    else
      match callFields fuel sz fs fs 0 newCallArgs s with
      | (s1, Ok ca1) =>
          (s1, match firstNonCursor (length fs) (drop (length fs) (nvargs s)) with
               | Some (k, a) => Fail (trailingError k a)
               | None =>
                   Ok (mkCallArgs (inFields ca1) (outFields ca1) (inArgs ca1)
                                  (outArgs ca1 ++ drop (length fs) (nvargs s)))
               end)
      | (s1, Fail e) => (s1, Fail e)
      | (s1, Panic p) => (s1, Panic p)
      | (s1, OutOfFuel) => (s1, OutOfFuel)
      end.
Proof.
  unfold convertCallArgs.
  destruct (length (nvargs s) <? length fs) eqn:Hlen; [done|].
  apply Nat.ltb_ge in Hlen. unfold mbind, M_bind.
  pose proof (callFields_callFrame fuel sz fs fs 0 newCallArgs (le_n _) s) as Hframe.
  destruct (callFields fuel sz fs fs 0 newCallArgs s) as [s1 [ca1|e|p|]]; try done.
  simpl in Hframe. pose proof (callFrame_length _ _ _ Hframe) as Hl.
  destruct Hframe as (_ & Hdrop & _).
  rewrite tableOutputArgs_run by lia. by rewrite Hdrop.
Qed.

(** C5. The CallArgs of a successful [convertCallArgs]: as many inArgs as
    inFields; at least as many outArgs as outFields; the outArgs beyond the
    outFields are the caller's trailing arguments, in the caller's order,
    each an output wrapper around a cursor sink; inFields are the fields
    with In set and outFields those with Out set, in declared order. *)
Theorem convertCallArgs_callArgs (fuel : nat) (fs : list Field.t) (sz : Z)
    (s s' : state) (ca : callArgs) :
  convertCallArgs fuel fs sz s = (s', Ok ca) ->
  length (inFields ca) = length (inArgs ca)
  /\ length (outFields ca) <= length (outArgs ca)
  /\ Forall (fun a => isCursorOut a = true) (drop (length (outFields ca)) (outArgs ca))
  /\ drop (length (outFields ca)) (outArgs ca) = drop (length fs) (nvargs s)
  /\ inFields ca = List.filter Field.In fs
  /\ outFields ca = List.filter Field.Out fs.
Proof.
  rewrite convertCallArgs_run.
  destruct (length (nvargs s) <? length fs); [done|].
  destruct (callFields fuel sz fs fs 0 newCallArgs s) as [s1 [ca1|e|p|]] eqn:Hrun;
    try done.
  destruct (callFields_yields fuel sz fs fs 0 newCallArgs s s1 ca1 Hrun)
    as (Hin & Hout & Hina & Houta).
  simpl in Hin, Hout, Hina, Houta.
  destruct (firstNonCursor _ _) as [[k a]|] eqn:Hfirst; [done|].
  intros [= _ <-]. simpl. apply firstNonCursor_None in Hfirst.
  rewrite length_app, Hin, Hout, Hina, Houta.
  rewrite drop_app_length' by done.
  repeat split; [lia | done].
Qed.

(** C6. A trailing argument, at an index from [len(fields)] on, that is
    not an output wrapper around a cursor sink makes [convertCallArgs]
    fail.  When the field loop has passed, the call fails at the first such
    argument with an error that carries its index and the dynamic type
    observed (of the argument, or of the Dest of an output wrapper); when
    there is none, every trailing argument is appended to outArgs, in
    order, and outFields holds the Out fields only. *)
Theorem convertCallArgs_trailing (fuel : nat) (fs : list Field.t) (sz : Z) (s : state) :
  (forall i a s' ca,
     length fs <= i -> nvargs s !! i = Some a -> isCursorOut a = false ->
     convertCallArgs fuel fs sz s <> (s', Ok ca))
  /\ (forall s1 ca1,
        length fs <= length (nvargs s) ->
        callFields fuel sz fs fs 0 newCallArgs s = (s1, Ok ca1) ->
        match firstNonCursor (length fs) (drop (length fs) (nvargs s)) with
        | Some (i, a) =>
            length fs <= i < length (nvargs s)
            /\ nvargs s !! i = Some a
            /\ isCursorOut a = false
            /\ convertCallArgs fuel fs sz s = (s1, Fail (trailingError i a))
        | None =>
            convertCallArgs fuel fs sz s
            = (s1, Ok (mkCallArgs (inFields ca1) (outFields ca1) (inArgs ca1)
                                  (outArgs ca1 ++ drop (length fs) (nvargs s))))
            /\ outFields ca1 = List.filter Field.Out fs
        end).
Proof.
  split.
  - intros i a s' ca Hi Ha Hbad. rewrite convertCallArgs_run.
    destruct (length (nvargs s) <? length fs); [done|].
    destruct (callFields fuel sz fs fs 0 newCallArgs s) as [s1 [ca1|e|p|]]; try done.
    destruct (firstNonCursor _ _) as [[k b]|] eqn:Hfirst; [done|].
    apply firstNonCursor_None in Hfirst. rewrite Forall_forall in Hfirst.
    assert (Hin : a ∈ drop (length fs) (nvargs s)).
    { apply list_elem_of_lookup. exists (i - length fs).
      rewrite lookup_drop. by replace (length fs + (i - length fs)) with i by lia. }
    specialize (Hfirst a Hin). congruence.
  - intros s1 ca1 Hlen Hrun. rewrite convertCallArgs_run, Hrun.
    rewrite (proj2 (Nat.ltb_ge _ _) Hlen).
    destruct (firstNonCursor _ _) as [[i a]|] eqn:Hfirst.
    + destruct (firstNonCursor_Some _ _ _ _ Hfirst) as (Hle & Hi & Ha).
      rewrite lookup_drop in Hi.
      replace (length fs + (i - length fs)) with i in Hi by lia.
      pose proof (lookup_lt_Some _ _ _ Hi). by repeat split.
    + split; [done|].
      by destruct (callFields_yields fuel sz fs fs 0 newCallArgs s s1 ca1 Hrun)
        as (_ & Hout & _).
Qed.

(** C7, as the code has it. [convertExecArgs] and [convertQueryArgs]
    leave the Ordinal and the Name of every entry of the caller's array in
    place, however they end.  [convertCallArgs] reorders the first
    [len(fields)] entries in place: the Ordinal/Name pairs after the call
    are a rearrangement of those before, the entries from [len(fields)] on
    are untouched, and when no argument carries a name every pair stays in
    place. *)
Theorem binders_keep_ordinal_and_name (fuel : nat) (fs : list Field.t) (sz : Z)
    (s : state) :
  NamedValue.key <$> nvargs (convertExecArgs fuel fs sz s).1
  = NamedValue.key <$> nvargs s
  /\ NamedValue.key <$> nvargs (convertQueryArgs fuel fs sz s).1
     = NamedValue.key <$> nvargs s
  /\ (NamedValue.key <$> nvargs (convertCallArgs fuel fs sz s).1
      ≡ₚ NamedValue.key <$> nvargs s
      /\ drop (length fs) (nvargs (convertCallArgs fuel fs sz s).1)
         = drop (length fs) (nvargs s)
      /\ (Forall (fun a => NamedValue.Name a = "") (nvargs s) ->
          NamedValue.key <$> nvargs (convertCallArgs fuel fs sz s).1
          = NamedValue.key <$> nvargs s)).
Proof.
  split; [|split].
  - destruct s as [A w]. destruct (decide (fs = [])) as [->|Hfs]; [done|].
    destruct (convertExecArgs_run fuel fs sz A w Hfs) as (A' & w' & r & -> & Hkey & _).
    exact Hkey.
  - unfold convertQueryArgs.
    destruct (negb (length (nvargs s) =? length fs)); [done|].
    apply queryFields_keysKept.
  - apply convertCallArgs_callFrame.
Qed.

(** * Further properties of the binders *)

(** ** reorderNVArgs on any window *)

Lemma reorderLoop_blocks (name : string) (l1 rest : list NamedValue.t) :
  forall (front back : list NamedValue.t),
    reorderLoop (length l1) name (length rest)
      (length l1 + length (front ++ back)) (l1 ++ (front ++ back) ++ rest)
    = l1 ++ (reverse (List.filter (nameMatches name) rest) ++ front)
         ++ back ++ List.filter (fun a => negb (nameMatches name a)) rest.
Proof.
  induction rest as [|a rest IH]; intros front back.
  - simpl. by rewrite !app_nil_r.
  - cbn [reorderLoop length List.filter].
    destruct (nameMatches name a) eqn:Hm; simpl negb; cbv iota.
    + rewrite reorderStep_split by done.
      specialize (IH (a :: front) back).
      replace (S (length l1 + length (front ++ back)))
        with (length l1 + length ((a :: front) ++ back)) by (simpl; lia).
      simpl app in IH at 2. simpl app at 2. rewrite IH.
      rewrite reverse_cons, <- (app_assoc _ [a] front). done.
    + rewrite reorderStep_nomatch.
      * specialize (IH front (back ++ [a])).
        replace (S (length l1 + length (front ++ back)))
          with (length l1 + length (front ++ back ++ [a]))
          by (rewrite !length_app; simpl; lia).
        replace (l1 ++ (front ++ back) ++ a :: rest)
          with (l1 ++ (front ++ back ++ [a]) ++ rest)
          by (by rewrite <- !(app_assoc _ _ _)).
        rewrite IH. by rewrite <- (app_assoc back [a]).
      * intros b. rewrite lookup_app_r by lia. rewrite lookup_app_r by lia.
        replace (length l1 + length (front ++ back) - length l1 - length (front ++ back))
          with 0 by lia.
        simpl. by intros [= <-].
Qed.

(** X1. On every window, also one with several entries of the same name:
    the entries before [pos] stay; behind them come the entries from [pos]
    on that carry the (non-empty) name, the last one found first; then the
    other entries from [pos] on, in their order.  The result is a
    rearrangement of the window, of the same length. *)
Theorem reorderNVArgs_layout (pos : nat) (name : string) (l : list NamedValue.t) :
  reorderNVArgs pos name l
  = take pos l
    ++ reverse (List.filter (nameMatches name) (drop pos l))
    ++ List.filter (fun a => negb (nameMatches name a)) (drop pos l)
  /\ reorderNVArgs pos name l ≡ₚ l
  /\ length (reorderNVArgs pos name l) = length l.
Proof.
  split; [|split; [apply reorderNVArgs_perm | apply reorderNVArgs_length]].
  destruct (decide (pos <= length l)) as [Hle|Hgt].
  - unfold reorderNVArgs.
    pose proof (reorderLoop_blocks name (take pos l) (drop pos l) [] []) as H.
    rewrite length_take, length_drop in H. simpl in H.
    rewrite Nat.min_l, Nat.add_0_r, take_drop, app_nil_r in H by lia.
    exact H.
  - unfold reorderNVArgs. replace (length l - pos) with 0 by lia.
    rewrite drop_ge, take_ge by lia. simpl. by rewrite app_nil_r.
Qed.

(** ** convertArg *)


(** ** QueryBinder and its relation to ExecBatcher *)

(** The field loop of [convertQueryArgs] is the row loop of
    [convertExecArgs] on row 0, the LOB flag dropped. *)
Lemma queryFields_execRow (fuel : nat) (sz : Z) (n : nat) (fs : list Field.t) :
  forall (i : nat) (h : bool) (s : state),
    queryFields fuel sz fs i s
    = match execRow fuel sz n 0 fs i h s with
      | (s', Ok _) => (s', Ok tt)
      | (s', Fail e) => (s', Fail e)
      | (s', Panic p) => (s', Panic p)
      | (s', OutOfFuel) => (s', OutOfFuel)
      end.
Proof.
  induction fs as [|f fs IH]; intros i h s; [done|].
  rewrite execRow_cons. cbn [queryFields Nat.mul Nat.add].
  unfold execArg, mbind, M_bind.
  destruct (getArg i s) as [s1 [a|e|p|]]; try done.
  destruct (Field.Out f); [done|].
  destruct (isOutArg (NamedValue.Value a)); [done|].
  destruct (negb (bool_decide (NamedValue.Name a = ""))); [done|].
  destruct (convertInto fuel f i (NamedValue.Value a) s1) as [s2 [v|e|p|]]; try done.
  destruct (primeLob sz v s2) as [s3 [[[|]|]|e|p|]]; try done; apply IH.
Qed.

Lemma execArg_accepts (fuel : nat) (sz : Z) (field : Field.t) (pre : list NamedValue.t)
    (a : NamedValue.t) (post : list NamedValue.t) (h : bool) (w : World)
    (s' : state) (h' : bool) :
  execArg fuel sz field (length pre) h (mkState (pre ++ a :: post) w) = (s', Ok h') ->
  Field.Out field = false /\ plainPositional a.
Proof.
  unfold execArg, mbind, M_bind, plainPositional. rewrite getArg_here.
  destruct (Field.Out field); [done|].
  destruct (isOutArg (NamedValue.Value a)); [done|].
  case_bool_decide; [done|]. done.
Qed.

Lemma execRow_accepts (fuel : nat) (sz : Z) (n i : nat) (fs : list Field.t) :
  forall (j : nat) (pre row post : list NamedValue.t) (h : bool) (w : World)
         (s' : state) (h' : bool),
    length pre = i * n + j ->
    length row = length fs ->
    execRow fuel sz n i fs j h (mkState (pre ++ row ++ post) w) = (s', Ok h') ->
    Forall (fun f => Field.Out f = false) fs /\ Forall plainPositional row.
Proof.
  induction fs as [|f fs IH]; intros j pre row post h w s' h' Hpre Hrow Hrun.
  - destruct row; [|done]. by split; constructor.
  - destruct row as [|a row]; [done|]. simpl in Hrow.
    rewrite execRow_cons, <- Hpre in Hrun. simpl app in Hrun.
    destruct (execArg_run fuel sz f pre a (row ++ post) h w)
      as (a' & w1 & r1 & Harg & _ & _).
    rewrite Harg in Hrun. destruct r1 as [h1|e|p|]; try done.
    destruct (execArg_accepts _ _ _ _ _ _ _ _ _ _ Harg) as [Hout Ha].
    replace (pre ++ a' :: row ++ post) with ((pre ++ [a']) ++ row ++ post) in Hrun
      by (by rewrite <- (app_assoc pre [a'])).
    destruct (IH (S j) (pre ++ [a']) row post h1 w1 s' h') as [Hfs Hrest];
      [rewrite length_app; simpl; lia | lia | done |].
    by split; constructor.
Qed.

Lemma execRows_accepts (fuel : nat) (sz : Z) (fs : list Field.t) (numRow : nat) :
  0 < length fs ->
  forall (cnt i : nat) (recs : list nat) (pre rest : list NamedValue.t) (w : World)
         (s' : state) (recs' : list nat),
    length pre = i * length fs ->
    length rest = cnt * length fs ->
    execRows fuel sz fs (length fs) numRow cnt i recs (mkState (pre ++ rest) w)
    = (s', Ok recs') ->
    (0 < cnt -> Forall (fun f => Field.Out f = false) fs)
    /\ Forall plainPositional rest.
Proof.
  intros Hn. induction cnt as [|c IH]; intros i recs pre rest w s' recs' Hpre Hrest Hrun.
  - destruct rest; [|done]. split; [lia | constructor].
  - rewrite execRows_S in Hrun.
    rewrite <- (take_drop (length fs) rest) in Hrun |- *.
    set (row := take (length fs) rest) in *. set (rest2 := drop (length fs) rest) in *.
    assert (Hrow : length row = length fs) by (unfold row; rewrite length_take; lia).
    assert (Hrest2 : length rest2 = c * length fs)
      by (unfold rest2; rewrite length_drop; lia).
    clearbody row rest2. clear Hrest rest.
    destruct (execRow_run fuel sz (length fs) i fs 0 pre row rest2 false w)
      as (row' & w1 & r1 & Hrow1 & Hkey1 & _); [lia | done |].
    rewrite Hrow1 in Hrun. destruct r1 as [h|e|p|]; try done.
    eapply execRow_accepts in Hrow1 as [Hfs Hpos]; [| lia | done].
    assert (Hrow' : length row' = length fs).
    { rewrite <- Hrow, <- (length_fmap NamedValue.key row'), Hkey1.
      by rewrite length_fmap. }
    rewrite (app_assoc pre row' rest2) in Hrun.
    eapply IH in Hrun as [_ Hrest]; [| rewrite length_app; lia | done].
    split; [done|]. by apply Forall_app.
Qed.

(** X3. What [convertExecArgs] has checked when it succeeds: no argument
    is an output wrapper or carries a name, and, unless the batch is empty,
    no field has the Out direction.  The array keeps its length, and the
    LOB sources are as [FetchNext] left them after one call for each
    converted argument that is a LOB descriptor, in argument order, and no
    other call. *)
Theorem convertExecArgs_accepts (fuel : nat) (fs : list Field.t) (sz : Z)
    (A : list NamedValue.t) (w : World) (A' : list NamedValue.t) (w' : World)
    (recs : list nat) :
  convertExecArgs fuel fs sz (mkState A w) = (mkState A' w', Ok recs) ->
  Forall plainPositional A
  /\ (A <> [] -> Forall (fun f => Field.Out f = false) fs)
  /\ length A' = length A
  /\ w' = primeWorld sz (NamedValue.Value <$> A') w.
Proof.
  intros Hrun.
  assert (Hfs : fs <> []).
  { intros ->. unfold convertExecArgs in Hrun. simpl in Hrun. congruence. }
  assert (Hn : 0 < length fs) by (destruct fs; simpl; [done | lia]).
  destruct (convertExecArgs_run fuel fs sz A w Hfs) as (A2 & w2 & r2 & Hrun2 & Hkey & Hr2).
  rewrite Hrun in Hrun2. injection Hrun2 as <- <- <-.
  destruct Hr2 as (Hlen & Hw & _ & _).
  rewrite convertExecArgs_nonempty in Hrun by done. simpl nvargs in Hrun.
  destruct (length A mod length fs =? 0); [|done]. simpl negb in Hrun. cbv iota in Hrun.
  apply (execRows_accepts fuel sz fs _ Hn _ 0 [] [] A w) in Hrun as [Hout Hpos];
    [| done | done].
  split; [done|]. split; [|split; [|done]].
  - intros HA. apply Hout.
    assert (0 < length A) by (destruct A; simpl; [done | lia]).
    destruct (length A / length fs); lia.
  - by rewrite <- (length_fmap NamedValue.key A'), Hkey, length_fmap.
Qed.

Lemma filter_none {A} (f : A -> bool) (l : list A) :
  (forall x, In x l -> f x = false) -> List.filter f l = [].
Proof.
  induction l as [|x l IH]; intros H; simpl; [done|].
  rewrite (H x) by (by left). apply IH. intros y Hy. apply H. by right.
Qed.

(** X4. A batch in which no primed descriptor owes continuation, and so a
    batch whose converted arguments hold no LOB at all, returns the last
    row alone. *)
Theorem convertExecArgs_only_last_row (fuel : nat) (fs : list Field.t) (sz : Z)
    (A : list NamedValue.t) (w : World) (A' : list NamedValue.t) (w' : World)
    (recs : list nat) (r : nat) :
  length A = r * length fs ->
  1 <= r ->
  convertExecArgs fuel fs sz (mkState A w) = (mkState A' w', Ok recs) ->
  (Forall (fun sig => owes sig = false) (primeSignals sz (NamedValue.Value <$> A') w) ->
   recs = [r - 1])
  /\ (Forall (fun a => isLob (NamedValue.Value a) = false) A' -> recs = [r - 1]).
Proof.
  intros Hlen Hr Hrun.
  assert (Hfs : fs <> []).
  { intros ->. unfold convertExecArgs in Hrun. simpl in Hrun. congruence. }
  destruct (convertExecArgs_run fuel fs sz A w Hfs) as (A2 & w2 & r2 & Hrun2 & _ & Hr2).
  rewrite Hrun in Hrun2. injection Hrun2 as <- <- <-.
  destruct Hr2 as (_ & _ & Hrecs & _).
  assert (Hdiv : length A / length fs = r).
  { rewrite Hlen. apply Nat.div_mul. by destruct fs. }
  rewrite Hdiv in Hrecs.
  assert (Hquiet :
    Forall (fun sig => owes sig = false) (primeSignals sz (NamedValue.Value <$> A') w) ->
    recs = [r - 1]).
  { intros Hall. rewrite Hrecs. unfold addLobDataRows.
    destruct r as [|r']; [lia|]. rewrite seq_S, List.filter_app. simpl.
    replace (r' - 0) with r' by lia.
    rewrite (bool_decide_eq_true_2 (r' = r')) by done. rewrite orb_true_r.
    rewrite filter_none; [done|].
    intros i Hi. apply in_seq in Hi.
    rewrite (bool_decide_eq_false_2 (i = r')) by lia. rewrite orb_false_r.
    unfold rowOwes. apply not_true_iff_false. intros Hex.
    apply existsb_exists in Hex as (sig & Hin & Hsig).
    apply list_elem_of_In in Hin.
    apply subseteq_take, subseteq_drop in Hin.
    rewrite Forall_forall in Hall. specialize (Hall sig Hin). congruence. }
  split; [exact Hquiet|].
  intros Hnolob. apply Hquiet. clear -Hnolob. revert w.
  induction Hnolob as [|a l Ha _ IH]; intros w; simpl; [constructor|].
  constructor; [|apply IH]. by destruct (NamedValue.Value a).
Qed.

(** X5. What [convertQueryArgs] does.  With an argument count other than
    the field count it fails with both counts and touches nothing.  When it
    succeeds the counts are equal, the argument at each index has been
    replaced by its conversion for the field at that index, the LOB sources
    are as one [FetchNext] for each converted descriptor left them, and no
    field has the Out direction and no argument was a wrapper or named. *)
Theorem convertQueryArgs_binds (fuel : nat) (fs : list Field.t) (sz : Z)
    (A : list NamedValue.t) (w : World) :
  (length A <> length fs ->
     convertQueryArgs fuel fs sz (mkState A w)
     = (mkState A w, Fail (ErrNumArgs (length A) (length fs))))
  /\ (forall s',
        convertQueryArgs fuel fs sz (mkState A w) = (s', Ok tt) ->
        length A = length fs
        /\ Forall3 (converted fuel) fs A (nvargs s')
        /\ world s' = primeWorld sz (NamedValue.Value <$> nvargs s') w
        /\ Forall (fun f => Field.Out f = false) fs
        /\ Forall plainPositional A).
Proof.
  unfold convertQueryArgs. simpl nvargs. split.
  - intros Hne. by rewrite (proj2 (Nat.eqb_neq _ _) Hne).
  - intros s'. destruct (length A =? length fs) eqn:Hlen; [|done].
    apply Nat.eqb_eq in Hlen. simpl negb. cbv iota.
    rewrite (queryFields_execRow fuel sz 0 fs 0 false).
    destruct (execRow_run fuel sz 0 0 fs 0 [] A [] false w)
      as (A' & w' & r & Hrun & _ & Hr); [done | done |].
    rewrite app_nil_r in Hrun. simpl app in Hrun.
    destruct (execRow fuel sz 0 0 fs 0 false (mkState A w)) as [s1 r1] eqn:Hrow.
    injection Hrun as -> ->. rewrite app_nil_r in *.
    destruct r as [h|e|p|]; try done.
    intros [= <-]. destruct Hr as (Hconv & Hw & _).
    pose proof (execRow_accepts fuel sz 0 0 fs 0 [] A [] false w) as Hacc.
    rewrite app_nil_r in Hacc. simpl app in Hacc.
    destruct (Hacc _ _ eq_refl Hlen Hrow) as [Hout Hpos].
    by repeat split.
Qed.

(** X6. On as many arguments as fields, fields not empty, batched exec and
    query are the same binder: they leave the same array and the same LOB
    sources, they fail with the same error, and where query returns, exec
    returns the single row 0. *)
Theorem convertExecArgs_one_row_is_query (fuel : nat) (fs : list Field.t) (sz : Z)
    (s : state) :
  fs <> [] ->
  length (nvargs s) = length fs ->
  convertExecArgs fuel fs sz s = withResult [0] (convertQueryArgs fuel fs sz s).
Proof.
  intros Hfs Hlen. rewrite convertExecArgs_nonempty by done.
  unfold convertQueryArgs. rewrite Hlen, Nat.eqb_refl.
  assert (Hn : length fs <> 0) by (by destruct fs).
  rewrite Nat.Div0.mod_same, Nat.div_same by done. simpl negb. cbv iota.
  rewrite execRows_S, (queryFields_execRow fuel sz (length fs) fs 0 false).
  destruct (execRow fuel sz (length fs) 0 fs 0 false s) as [s1 [h|e|p|]]; try done.
  simpl. by rewrite orb_true_r.
Qed.

(** ** Run-time faults *)

Lemma inBounds_ret {A} (n : nat) (a : A) : inBounds n (mret a).
Proof. by intros s Hs. Qed.

Lemma inBounds_fail {A} (n : nat) (e : error) : inBounds n (fail (A := A) e).
Proof. by intros s Hs. Qed.

Lemma inBounds_diverge {A} (n : nat) :
  inBounds n (fun s : state => (s, OutOfFuel (A := A))).
Proof. by intros s Hs. Qed.

Lemma inBounds_bind {A B} (n : nat) (m : M A) (f : A -> M B) :
  inBounds n m -> (forall a, inBounds n (f a)) -> inBounds n (m ≫= f).
Proof.
  intros Hm Hf s Hs. destruct (Hm s Hs) as [Hlen Hp]. unfold mbind, M_bind.
  destruct (m s) as [s1 [a|e|p|]]; simpl in *; try done.
  - by apply Hf.
  - by destruct (Hp p).
Qed.

Lemma inBounds_getArg (n k : nat) : k < n -> inBounds n (getArg k).
Proof.
  intros Hk s Hs. unfold getArg.
  destruct (lookup_lt_is_Some_2 (nvargs s) k) as [a ->]; [lia | done].
Qed.

Lemma inBounds_putValue (n k : nat) (v : value) : k < n -> inBounds n (putValue k v).
Proof.
  intros Hk s Hs. unfold putValue.
  destruct (lookup_lt_is_Some_2 (nvargs s) k) as [a ->]; [lia|].
  simpl. by rewrite length_insert.
Qed.

Lemma inBounds_primeLob (n : nat) (sz : Z) (v : value) : inBounds n (primeLob sz v).
Proof.
  intros s Hs. destruct (primeLob_run sz v s) as (w' & r & -> & Hr). simpl.
  split; [done|]. intros p ->. done.
Qed.

Lemma inBounds_convertInto (n : nat) (fuel : nat) (field : Field.t) (k : nat)
    (arg : value) :
  k < n -> inBounds n (convertInto fuel field k arg).
Proof.
  intros Hk. unfold convertInto.
  destruct (convertArg fuel field arg) as [v [e|]|]; [| |apply inBounds_diverge];
    (apply inBounds_bind; [by apply inBounds_putValue|]); intros _;
    [apply inBounds_fail | apply inBounds_ret].
Qed.

Lemma inBounds_reorderWindow (n numField i : nat) (name : string) :
  inBounds n (reorderWindow numField i name).
Proof.
  intros s Hs. unfold reorderWindow. simpl. split; [|done].
  by rewrite length_app, reorderNVArgs_length, <- length_app, take_drop.
Qed.

Lemma inBounds_callIn (n : nat) (fuel : nat) (sz : Z) (field : Field.t) (i : nat)
    (nvarg : NamedValue.t) (out : option (value * bool)) (ca : callArgs) :
  i < n -> inBounds n (callIn fuel sz field i nvarg out ca).
Proof.
  intros Hi. unfold callIn. apply inBounds_bind.
  - destruct out as [[dest in_]|].
    + destruct (negb in_); [apply inBounds_fail|].
      destruct (convertArg fuel field dest) as [v [e|]|];
        [apply inBounds_fail | apply inBounds_ret | apply inBounds_diverge].
    + apply inBounds_bind; [by apply inBounds_convertInto|].
      intros _. apply inBounds_ret.
  - intros out'. apply inBounds_bind; [by apply inBounds_getArg|]. intros cur.
    apply inBounds_bind; [apply inBounds_primeLob|]. intros _.
    apply inBounds_bind; [by apply inBounds_getArg|]. intros cur'.
    apply inBounds_ret.
Qed.

Lemma inBounds_callOut (n : nat) (field : Field.t) (i : nat)
    (out : option (value * bool)) (ca : callArgs) :
  i < n -> inBounds n (callOut field i out ca).
Proof.
  intros Hi. unfold callOut. destruct out as [[dest in_]|]; [|apply inBounds_fail].
  destruct (isRows dest); [apply inBounds_fail|].
  apply inBounds_bind; [by apply inBounds_getArg|]. intros cur. apply inBounds_ret.
Qed.

Lemma inBounds_callField (fuel : nat) (sz : Z) (fs : list Field.t) (i : nat)
    (field : Field.t) (ca : callArgs) :
  i < length fs -> inBounds (length fs) (callField fuel sz fs i field ca).
Proof.
  intros Hi. unfold callField.
  apply inBounds_bind; [apply inBounds_reorderWindow|]. intros _.
  apply inBounds_bind; [by apply inBounds_getArg|]. intros nvarg.
  case_match; [apply inBounds_fail|].
  apply inBounds_bind.
  - destruct (Field.In field); [by apply inBounds_callIn | apply inBounds_ret].
  - intros [out' ca']. destruct (Field.Out field);
      [by apply inBounds_callOut | apply inBounds_ret].
Qed.

Lemma inBounds_callFields (fuel : nat) (sz : Z) (fs : list Field.t) :
  forall (rest : list Field.t) (i : nat) (ca : callArgs),
    i + length rest <= length fs ->
    inBounds (length fs) (callFields fuel sz fs rest i ca).
Proof.
  induction rest as [|f rest IH]; intros i ca Hi; cbn [callFields];
    [apply inBounds_ret|].
  simpl in Hi. apply inBounds_bind; [apply inBounds_callField; lia|].
  intros ca'. apply IH. lia.
Qed.

(** X7. No binder ever indexes outside the caller's array.  The only
    run-time fault of the three is the division by zero of
    [convertExecArgs] on an empty field list; [convertQueryArgs] and
    [convertCallArgs] have none, whatever the fields and the arguments. *)
Theorem binders_index_in_range (fuel : nat) (fs : list Field.t) (sz : Z)
    (s : state) (p : panic) :
  ((convertExecArgs fuel fs sz s).2 = Panic p -> fs = [] /\ p = DivideByZero)
  /\ (convertQueryArgs fuel fs sz s).2 <> Panic p
  /\ (convertCallArgs fuel fs sz s).2 <> Panic p.
Proof.
  destruct s as [A w]. split; [|split].
  - destruct (decide (fs = [])) as [->|Hfs].
    + unfold convertExecArgs. simpl. by intros [= <-].
    + destruct (convertExecArgs_run fuel fs sz A w Hfs) as (A' & w' & r & -> & _ & Hr).
      simpl. by intros ->.
  - unfold convertQueryArgs. simpl nvargs.
    destruct (length A =? length fs) eqn:Hlen; [|done].
    apply Nat.eqb_eq in Hlen. simpl negb. cbv iota.
    rewrite (queryFields_execRow fuel sz 0 fs 0 false).
    destruct (execRow_run fuel sz 0 0 fs 0 [] A [] false w)
      as (A' & w' & r & Hrun & _ & Hr); [done | done |].
    rewrite app_nil_r in Hrun. simpl app in Hrun. rewrite Hrun.
    by destruct r.
  - rewrite convertCallArgs_run. simpl nvargs.
    destruct (length A <? length fs) eqn:Hlen; [done|].
    apply Nat.ltb_ge in Hlen.
    destruct (inBounds_callFields fuel sz fs fs 0 newCallArgs (le_n _) (mkState A w) Hlen)
      as [_ Hp].
    destruct (callFields fuel sz fs fs 0 newCallArgs (mkState A w)) as [s1 [ca1|e|q|]];
      simpl in *; try done.
    by destruct (firstNonCursor _ _) as [[k a]|].
Qed.

(** ** CallBinder: what the CallArgs hold *)

Lemma convertInto_at (fuel : nat) (f : Field.t) (i : nat) (a : NamedValue.t)
    (l : list NamedValue.t) (w : World) :
  l !! i = Some a ->
  convertInto fuel f i (NamedValue.Value a) (mkState l w)
  = match convertArg fuel f (NamedValue.Value a) with
    | Diverges => (mkState l w, OutOfFuel)
    | Returns v (Some e) =>
        (mkState (<[i := NamedValue.setValue v a]> l) w,
         Fail (ErrConversion (Field.String f) e))
    | Returns v None => (mkState (<[i := NamedValue.setValue v a]> l) w, Ok v)
    end.
Proof.
  intros Ha. unfold convertInto.
  destruct (convertArg fuel f (NamedValue.Value a)) as [v [e|]|]; [| |done];
    unfold mbind, M_bind, putValue; simpl; by rewrite Ha.
Qed.

(** The [field.In()] block when it passes, on an argument that is no
    output wrapper. *)
Lemma callIn_plain_ok (fuel : nat) (sz : Z) (f : Field.t) (i : nat) (a : NamedValue.t)
    (ca : callArgs) (l : list NamedValue.t) (w : World) (s' : state)
    (out' : option (value * bool)) (ca' : callArgs) :
  l !! i = Some a ->
  callIn fuel sz f i a None ca (mkState l w) = (s', Ok (out', ca')) ->
  exists a',
    nvargs s' = <[i := a']> l
    /\ converted fuel f a a'
    /\ out' = None
    /\ ca' = mkCallArgs (inFields ca ++ [f]) (outFields ca) (inArgs ca ++ [a']) (outArgs ca).
Proof.
  intros Ha. unfold callIn, mbind, M_bind. rewrite convertInto_at by done.
  pose proof (lookup_lt_Some _ _ _ Ha) as Hlt.
  destruct (convertArg fuel f (NamedValue.Value a)) as [v [e|]|] eqn:Hconv; try done.
  unfold getArg. cbn -[primeLob]. rewrite list_lookup_insert_eq by done.
  destruct (primeLob_run sz (NamedValue.Value (NamedValue.setValue v a))
              (mkState (<[i := NamedValue.setValue v a]> l) w))
    as (w' & r & Hprime & _).
  rewrite Hprime. destruct r as [sig|e|p|]; try done.
  simpl. rewrite list_lookup_insert_eq by done.
  intros [= <- <- <-]. exists (NamedValue.setValue v a). simpl.
  repeat split. by exists v.
Qed.

(** The [field.In()] block when it passes, on an output wrapper: the
    array and the LOB sources are as before. *)
Lemma callIn_wrapper_ok (fuel : nat) (sz : Z) (f : Field.t) (i : nat) (a : NamedValue.t)
    (name : string) (dest : value) (in_ : bool)
    (ca : callArgs) (l : list NamedValue.t) (w : World) (s' : state)
    (out' : option (value * bool)) (ca' : callArgs) :
  l !! i = Some a ->
  NamedValue.Value a = VOut name dest in_ ->
  callIn fuel sz f i a (Some (dest, in_)) ca (mkState l w) = (s', Ok (out', ca')) ->
  s' = mkState l w
  /\ in_ = true
  /\ (exists v, convertArg fuel f dest = Returns v None /\ out' = Some (v, in_))
  /\ ca' = mkCallArgs (inFields ca ++ [f]) (outFields ca) (inArgs ca ++ [a]) (outArgs ca).
Proof.
  intros Ha Hv. unfold callIn, mbind, M_bind.
  destruct in_; simpl; [|done].
  destruct (convertArg fuel f dest) as [v [e|]|] eqn:Hconv; try done.
  simpl. unfold getArg. simpl. rewrite Ha, Hv. simpl. rewrite Ha.
  intros [= <- <- <-]. repeat split. by exists v.
Qed.

(** The [field.Out()] block when it passes. *)
Lemma callOut_ok (f : Field.t) (i : nat) (out : option (value * bool)) (ca : callArgs)
    (s s' : state) (ca' : callArgs) (cur : NamedValue.t) :
  nvargs s !! i = Some cur ->
  callOut f i out ca s = (s', Ok ca') ->
  s' = s
  /\ (exists dest in_, out = Some (dest, in_) /\ isRows dest = false)
  /\ ca' = mkCallArgs (inFields ca) (outFields ca ++ [f]) (inArgs ca) (outArgs ca ++ [cur]).
Proof.
  intros Hcur. unfold callOut. destruct out as [[dest in_]|]; [|done].
  destruct (isRows dest) eqn:Hrows; [done|].
  unfold mbind, M_bind, getArg. rewrite Hcur. intros [= <- <-].
  repeat split. by exists dest, in_.
Qed.

(** One pass of the field loop that succeeds. *)
Lemma callField_ok (fuel : nat) (sz : Z) (fs : list Field.t) (i : nat) (f : Field.t)
    (ca : callArgs) (s s' : state) (ca' : callArgs) :
  callField fuel sz fs i f ca s = (s', Ok ca') ->
  exists a a',
    (reorderNVArgs i (Field.Name f) (take (length fs) (nvargs s))
     ++ drop (length fs) (nvargs s)) !! i = Some a
    /\ nvargs s'
       = <[i := a']> (reorderNVArgs i (Field.Name f) (take (length fs) (nvargs s))
                      ++ drop (length fs) (nvargs s))
    /\ (forall A0, a ∈ A0 -> boundTo fuel A0 f a')
    /\ ca' = mkCallArgs (inFields ca ++ (if Field.In f then [f] else []))
                        (outFields ca ++ (if Field.Out f then [f] else []))
                        (inArgs ca ++ (if Field.In f then [a'] else []))
                        (outArgs ca ++ (if Field.Out f then [a'] else [])).
Proof.
  unfold callField, mbind, M_bind, reorderWindow, getArg. simpl.
  set (l1 := reorderNVArgs i (Field.Name f) (take (length fs) (nvargs s))
             ++ drop (length fs) (nvargs s)).
  destruct (l1 !! i) as [a|] eqn:Ha; [|done].
  assert (Hname : negb (bool_decide (NamedValue.Name a = ""))
                  && negb (bool_decide (NamedValue.Name a = Field.Name f)) = false ->
                  NamedValue.Name a = "" \/ NamedValue.Name a = Field.Name f).
  { repeat case_bool_decide; simpl; try done; auto. }
  destruct (negb _ && negb _); [done|]. specialize (Hname eq_refl).
  assert (Hsame : <[i := a]> l1 = l1) by (by apply list_insert_id).
  destruct (isOutArg (NamedValue.Value a)) eqn:Hwrap.
  - (* an output wrapper *)
    destruct (NamedValue.Value a) as [| | |name dest in_| | | | |] eqn:Hv; try done.
    assert (Hbound : (Field.In f = true ->
                       in_ = true /\ exists v, convertArg fuel f dest = Returns v None) ->
                     (Field.In f = false -> Field.Out f = true -> isRows dest = false) ->
                     forall A0, a ∈ A0 -> boundTo fuel A0 f a).
    { intros H1 H2 A0 HA0. split; [done|]. left. by exists name, dest, in_. }
    destruct (Field.In f) eqn:Hin.
    + destruct (callIn fuel sz f i a (Some (dest, in_)) ca (mkState l1 (world s)))
        as [s1 [[out' ca1]|e|p|]] eqn:Hrun; try done.
      destruct (callIn_wrapper_ok _ _ _ _ _ _ _ _ _ _ _ _ _ _ Ha Hv Hrun)
        as (-> & -> & (v & Hconv & ->) & ->).
      assert (Hb : forall A0, a ∈ A0 -> boundTo fuel A0 f a).
      { apply Hbound; [|done]. intros _. split; [done|]. by exists v. }
      destruct (Field.Out f) eqn:Hout.
      * intros Hrun2.
        destruct (callOut_ok _ _ _ _ (mkState l1 (world s)) _ _ a Ha Hrun2) as (-> & _ & ->).
        exists a, a. by rewrite Hsame.
      * intros [= <- <-]. exists a, a. rewrite Hsame. simpl. repeat rewrite app_nil_r. done.
    + cbn -[callOut]. destruct (Field.Out f) eqn:Hout.
      * intros Hrun2.
        destruct (callOut_ok _ _ _ _ (mkState l1 (world s)) _ _ a Ha Hrun2)
          as (-> & (dest' & in' & [= <- <-] & Hrows) & ->).
        exists a, a. rewrite Hsame. simpl. repeat rewrite app_nil_r.
        repeat split; try done. by apply Hbound.
      * intros [= <- <-]. exists a, a. rewrite Hsame. simpl.
        repeat rewrite app_nil_r.
        destruct ca. repeat split; try done. by apply Hbound.
  - (* any other argument *)
    assert (Hnone : match NamedValue.Value a with
                    | VOut _ dest in_ => Some (dest, in_)
                    | _ => None
                    end = None)
      by (by destruct (NamedValue.Value a)).
    rewrite Hnone. destruct (Field.In f) eqn:Hin.
    + destruct (callIn fuel sz f i a None ca (mkState l1 (world s)))
        as [s1 [[out' ca1]|e|p|]] eqn:Hrun; try done.
      destruct (callIn_plain_ok _ _ _ _ _ _ _ _ _ _ _ Ha Hrun)
        as (a' & Hs1 & Hconv & -> & ->).
      destruct (Field.Out f) eqn:Hout; [done|].
      intros [= <- <-]. exists a, a'. simpl.
      repeat rewrite app_nil_r.
      assert (Hname' : NamedValue.Name a' = "" \/ NamedValue.Name a' = Field.Name f)
        by (by destruct Hconv as (v & _ & ->)).
      repeat split; try done. right. split; [done|]. exists a. by rewrite Hin.
    + cbn -[callOut]. destruct (Field.Out f) eqn:Hout; [done|].
      intros [= <- <-]. exists a, a. rewrite Hsame. simpl.
      repeat rewrite app_nil_r.
      destruct ca. repeat split; try done. right. split; [done|]. exists a.
      by rewrite Hin.
Qed.

Lemma reorderNVArgs_drop_perm (pos : nat) (name : string) (l : list NamedValue.t) :
  drop pos (reorderNVArgs pos name l) ≡ₚ drop pos l.
Proof.
  apply (Permutation_app_inv_l (take pos l)).
  rewrite <- (reorderNVArgs_take pos name l) at 1.
  rewrite !take_drop. apply reorderNVArgs_perm.
Qed.

(** The window after [reorderNVArgs(i, name, nvargs[:n])]. *)
Lemma reorderWindow_facts (n i : nat) (name : string) (l : list NamedValue.t) :
  n <= length l ->
  length (reorderNVArgs i name (take n l) ++ drop n l) = length l
  /\ take i (reorderNVArgs i name (take n l) ++ drop n l) = take i l
  /\ (i <= n ->
      drop i (take n (reorderNVArgs i name (take n l) ++ drop n l))
      ≡ₚ drop i (take n l)).
Proof.
  intros Hn.
  assert (Hlen : length (reorderNVArgs i name (take n l)) = n)
    by (rewrite reorderNVArgs_length, length_take; lia).
  split; [|split].
  - rewrite length_app, Hlen, length_drop. lia.
  - destruct (decide (i <= n)) as [Hi|Hi].
    + rewrite take_app_le by lia. rewrite reorderNVArgs_take, take_take.
      by rewrite Nat.min_l by lia.
    + assert (Hnoop : reorderNVArgs i name (take n l) = take n l).
      { apply reorderLoop_noop. rewrite drop_ge by (rewrite length_take; lia).
        constructor. }
      by rewrite Hnoop, take_drop.
  - intros Hi. rewrite take_app_length' by done. apply reorderNVArgs_drop_perm.
Qed.

(** The field loop from field [i] on, when it succeeds. *)
Lemma callFields_ok (fuel : nat) (sz : Z) (fs : list Field.t) (A0 : list NamedValue.t) :
  forall (rest : list Field.t) (i : nat) (ca : callArgs) (s s' : state) (ca' : callArgs),
    i + length rest = length fs ->
    length fs <= length (nvargs s) ->
    (forall x, x ∈ drop i (take (length fs) (nvargs s)) -> x ∈ A0) ->
    callFields fuel sz fs rest i ca s = (s', Ok ca') ->
    take i (nvargs s') = take i (nvargs s)
    /\ Forall2 (boundTo fuel A0) rest (take (length rest) (drop i (nvargs s')))
    /\ inArgs ca' = inArgs ca ++ pick Field.In rest (drop i (nvargs s'))
    /\ outArgs ca' = outArgs ca ++ pick Field.Out rest (drop i (nvargs s')).
Proof.
  induction rest as [|f rest IH]; intros i ca s s' ca' Hi Hn Hsub Hrun.
  - injection Hrun as <- <-. simpl. rewrite !app_nil_r. by repeat split.
  - cbn [callFields] in Hrun. unfold mbind, M_bind in Hrun.
    destruct (callField fuel sz fs i f ca s) as [s1 [ca1|e|p|]] eqn:Hstep; try done.
    destruct (callField_ok _ _ _ _ _ _ _ _ _ Hstep) as (a & a' & Ha & Hs1 & Hbound & ->).
    simpl in Hi.
    destruct (reorderWindow_facts (length fs) i (Field.Name f) (nvargs s) Hn)
      as (Hlen1 & Htake1 & Hperm1).
    set (l1 := reorderNVArgs i (Field.Name f) (take (length fs) (nvargs s))
               ++ drop (length fs) (nvargs s)) in *.
    specialize (Hperm1 ltac:(lia)).
    assert (Hlt : i < length l1) by lia.
    assert (HaA0 : a ∈ A0).
    { apply Hsub. rewrite <- Hperm1. apply list_elem_of_lookup. exists 0.
      rewrite lookup_drop, Nat.add_0_r, lookup_take_lt by lia. done. }
    eapply IH in Hrun as (Htake & Hall & Hin & Hout); [| lia | |].
    2: { rewrite Hs1, length_insert. lia. }
    2: { intros x Hx. apply Hsub. rewrite <- Hperm1.
         rewrite Hs1, take_insert_lt, drop_insert_lt in Hx by lia.
         rewrite <- (Nat.add_1_r i), <- drop_drop in Hx.
         by apply subseteq_drop in Hx. }
    assert (Hi' : nvargs s' !! i = Some a').
    { rewrite <- (lookup_take_lt (nvargs s') (S i) i) by lia.
      rewrite Htake, lookup_take_lt, Hs1 by lia. by apply list_lookup_insert_eq. }
    rewrite (drop_S _ _ _ Hi'). simpl. split; [|split; [|split]].
    + replace (take i (nvargs s')) with (take i (take (S i) (nvargs s')))
        by (rewrite take_take; f_equal; lia).
      rewrite Htake, take_take, Hs1, Nat.min_l, take_insert_ge by lia. done.
    + constructor; [by apply Hbound | done].
    + rewrite Hin. simpl. rewrite <- (app_assoc (inArgs ca)). by destruct (Field.In f).
    + rewrite Hout. simpl. rewrite <- (app_assoc (outArgs ca)). by destruct (Field.Out f).
Qed.

(** X8. What the CallArgs of a successful [convertCallArgs] hold: inArgs
    are the entries of the array, as it is after the call, at the positions
    of the In fields, outArgs those at the positions of the Out fields
    followed by the trailing arguments.  The entry at the position of a
    field carries no name or the name of that field; it is one of the
    caller's output wrappers, passed on as it came (with In set when the
    field is an In field, and with no cursor sink as Dest when the field is
    Out only), or one of the caller's other arguments, which is then bound
    to a field without Out direction and converted when that is an In
    field. *)
Theorem convertCallArgs_bound (fuel : nat) (fs : list Field.t) (sz : Z)
    (s s' : state) (ca : callArgs) :
  convertCallArgs fuel fs sz s = (s', Ok ca) ->
  inArgs ca = pick Field.In fs (nvargs s')
  /\ outArgs ca = pick Field.Out fs (nvargs s') ++ drop (length fs) (nvargs s')
  /\ Forall2 (boundTo fuel (nvargs s)) fs (take (length fs) (nvargs s')).
Proof.
  rewrite convertCallArgs_run.
  destruct (length (nvargs s) <? length fs) eqn:Hlen; [done|].
  apply Nat.ltb_ge in Hlen.
  pose proof (callFields_callFrame fuel sz fs fs 0 newCallArgs (le_n _) s) as Hframe.
  destruct (callFields fuel sz fs fs 0 newCallArgs s) as [s1 [ca1|e|p|]] eqn:Hrun;
    try done.
  destruct (firstNonCursor _ _) as [[k a]|]; [done|].
  intros [= <- <-]. simpl in Hframe. destruct Hframe as (_ & Hdrop & _).
  destruct (callFields_ok fuel sz fs (nvargs s) fs 0 newCallArgs s s1 ca1)
    as (_ & Hall & Hin & Hout); [done | done | | done |].
  { intros x Hx. rewrite drop_0 in Hx. by apply subseteq_take in Hx. }
  rewrite drop_0 in Hall, Hin, Hout. simpl in *.
  by rewrite Hin, Hout, Hdrop.
Qed.


(** X10. The binders on an empty field list.  [convertQueryArgs] accepts
    no argument at all; [convertCallArgs] takes every argument for a table
    output: it fails at the first that is no output wrapper around a
    cursor sink, with its index and type, and otherwise returns all of
    them as outArgs, the other three lists empty.  Neither touches the
    array. *)
Theorem binders_without_fields (fuel : nat) (sz : Z) (s : state) :
  convertQueryArgs fuel [] sz s
  = (s, if decide (nvargs s = []) then Ok tt
        else Fail (ErrNumArgs (length (nvargs s)) 0))
  /\ convertCallArgs fuel [] sz s
     = (s, match firstNonCursor 0 (nvargs s) with
           | Some (k, a) => Fail (trailingError k a)
           | None => Ok (mkCallArgs [] [] [] (nvargs s))
           end).
Proof.
  split.
  - unfold convertQueryArgs. simpl. by destruct (nvargs s).
  - rewrite convertCallArgs_run. simpl. by rewrite drop_0.
Qed.

(** ** Where a binder fails *)

Lemma drop_S_middle {T} (l1 : list T) (x : T) (l2 : list T) (n : nat) :
  n = length l1 -> drop (S n) (l1 ++ x :: l2) = l2.
Proof.
  intros ->. rewrite cons_middle, app_assoc. apply drop_app_length'.
  rewrite length_app. simpl. lia.
Qed.

Lemma execArg_fails (fuel : nat) (sz : Z) (field : Field.t) (pre : list NamedValue.t)
    (a : NamedValue.t) (post : list NamedValue.t) (h : bool) (w : World)
    (s' : state) (e : error) :
  execArg fuel sz field (length pre) h (mkState (pre ++ a :: post) w) = (s', Fail e) ->
  exists a' w',
    s' = mkState (pre ++ a' :: post) w' /\ rejects fuel sz field a w a' w' e.
Proof.
  unfold execArg, mbind, M_bind, rejects, plainPositional. rewrite getArg_here.
  destruct (Field.Out field) eqn:Hout.
  { intros [= <- <-]. exists a, w. split; [done|]. by left. }
  destruct (isOutArg (NamedValue.Value a)) eqn:Hwrap.
  { intros [= <- <-]. exists a, w. split; [done|]. right. by left. }
  destruct (negb (bool_decide (NamedValue.Name a = ""))) eqn:Hname.
  { apply negb_true_iff, bool_decide_eq_false in Hname.
    intros [= <- <-]. exists a, w. split; [done|]. right. right. by left. }
  apply negb_false_iff, bool_decide_eq_true in Hname.
  rewrite convertInto_here.
  destruct (convertArg fuel field (NamedValue.Value a)) as [v [cause|]|] eqn:Hconv;
    [| |done].
  - intros [= <- <-]. exists (NamedValue.setValue v a), w. split; [done|].
    do 3 right. left. split; [done|]. split; [done|]. by exists v, cause.
  - destruct v; simpl; try by destruct h.
    destruct (FetchNext sz l w) as [w1 [e1|]] eqn:Hfetch; simpl.
    + intros [= <- <-]. exists (NamedValue.setValue (VLob l) a), w1. split; [done|].
      do 4 right. split; [done|]. split; [done|]. by exists l.
    + by destruct (IsLastData l w1).
Qed.

Lemma execRow_fails (fuel : nat) (sz : Z) (n i : nat) (fs : list Field.t) :
  forall (j : nat) (pre row post : list NamedValue.t) (h : bool) (w : World)
         (s' : state) (e : error),
    length pre = i * n + j ->
    length row = length fs ->
    execRow fuel sz n i fs j h (mkState (pre ++ row ++ post) w) = (s', Fail e) ->
    exists fs1 f fs2 row1 a row2 row1' a' w',
      fs = fs1 ++ f :: fs2 /\ row = row1 ++ a :: row2
      /\ s' = mkState (pre ++ (row1' ++ a' :: row2) ++ post) w'
      /\ Forall3 (converted fuel) fs1 row1 row1'
      /\ rejects fuel sz f a (primeWorld sz (NamedValue.Value <$> row1') w) a' w' e.
Proof.
  induction fs as [|f fs IH]; intros j pre row post h w s' e Hpre Hrow Hrun.
  - by destruct row.
  - destruct row as [|a row]; [done|]. simpl in Hrow.
    rewrite execRow_cons, <- Hpre in Hrun. simpl app in Hrun.
    destruct (execArg_run fuel sz f pre a (row ++ post) h w)
      as (a1 & w1 & r1 & Harg & _ & Hr1).
    pose proof Harg as Harg'. rewrite Harg in Hrun.
    destruct r1 as [h1|e1|p|]; try done.
    + destruct Hr1 as (Hconv & Hw1 & _).
      replace (pre ++ a1 :: row ++ post) with ((pre ++ [a1]) ++ row ++ post) in Hrun
        by (by rewrite <- app_assoc).
      apply IH in Hrun
        as (fs1 & f' & fs2 & row1 & a' & row2 & row1' & a'' & w' & -> & -> & -> & Hall & Hrej);
        [| rewrite length_app; simpl; lia | lia].
      exists (f :: fs1), f', fs2, (a :: row1), a', row2, (a1 :: row1'), a'', w'.
      split; [done|]. split; [done|]. split; [by rewrite <- app_assoc|].
      split; [by constructor|]. simpl. by rewrite <- Hw1.
    + injection Hrun as <- <-.
      apply execArg_fails in Harg' as (a' & w' & Hs & Hrej).
      exists [], f, fs, [], a, row, [], a', w'.
      split; [done|]. split; [done|]. split; [done|]. split; [constructor | done].
Qed.

Lemma execRows_fails (fuel : nat) (sz : Z) (fs : list Field.t) (numRow : nat) :
  0 < length fs ->
  forall (cnt i : nat) (recs : list nat) (pre rest : list NamedValue.t) (w : World)
         (s' : state) (e : error),
    length pre = i * length fs ->
    length rest = cnt * length fs ->
    execRows fuel sz fs (length fs) numRow cnt i recs (mkState (pre ++ rest) w)
    = (s', Fail e) ->
    exists r1 a r2 r1' a' w' f,
      rest = r1 ++ a :: r2
      /\ s' = mkState (pre ++ r1' ++ a' :: r2) w'
      /\ length r1' = length r1
      /\ (forall j a0, r1 !! j = Some a0 ->
            exists f0 a0', fs !! (j mod length fs) = Some f0
                           /\ r1' !! j = Some a0' /\ converted fuel f0 a0 a0')
      /\ fs !! (length r1 mod length fs) = Some f
      /\ rejects fuel sz f a (primeWorld sz (NamedValue.Value <$> r1') w) a' w' e.
Proof.
  intros Hn. induction cnt as [|c IH]; intros i recs pre rest w s' e Hpre Hrest Hrun.
  - done.
  - set (row := take (length fs) rest). set (more := drop (length fs) rest).
    assert (Hsplit : rest = row ++ more) by (unfold row, more; by rewrite take_drop).
    assert (Hrow : length row = length fs).
    { unfold row. rewrite length_take. lia. }
    assert (Hmore : length more = c * length fs).
    { unfold more. rewrite length_drop. lia. }
    clearbody row more. subst rest. clear Hrest.
    rewrite execRows_S in Hrun.
    destruct (execRow_run fuel sz (length fs) i fs 0 pre row more false w)
      as (row' & w1 & r & Hrowrun & Hkeys & Hr); [lia | done |].
    pose proof Hrowrun as Hrowrun'. rewrite Hrowrun in Hrun.
    assert (Hrow' : length row' = length fs).
    { by rewrite <- (length_fmap NamedValue.key row'), Hkeys, length_fmap. }
    destruct r as [h1|e1|p|]; try done.
    + destruct Hr as (Hall & Hw1 & _).
      rewrite (app_assoc pre row' more) in Hrun.
      apply IH in Hrun
        as (r1 & a & r2 & r1' & a' & w' & f & -> & -> & Hlen & Hpoint & Hf & Hrej);
        [| rewrite length_app; lia | done].
      exists (row ++ r1), a, r2, (row' ++ r1'), a', w', f.
      split; [by rewrite <- app_assoc|]. split; [by rewrite <- !app_assoc|].
      split; [rewrite !length_app; lia|]. split; [|split].
      * intros j a0 Hj. destruct (decide (j < length fs)) as [Hlt|Hge].
        -- rewrite lookup_app_l in Hj by lia.
           rewrite Nat.mod_small by done. rewrite lookup_app_l by lia.
           destruct (Forall3_lookup_m _ _ _ _ _ _ Hall Hj) as (f0 & a0' & Hf0 & Ha0' & Hc).
           by exists f0, a0'.
        -- rewrite lookup_app_r in Hj by lia. rewrite Hrow in Hj.
           destruct (Hpoint _ _ Hj) as (f0 & a0' & Hf0 & Ha0' & Hc).
           exists f0, a0'. split; [|split; [|done]].
           ++ replace j with ((j - length fs) + 1 * length fs) by lia.
              by rewrite Nat.Div0.mod_add.
           ++ rewrite lookup_app_r by lia. by rewrite Hrow'.
      * rewrite length_app, Hrow.
        replace (length fs + length r1) with (length r1 + 1 * length fs) by lia.
        by rewrite Nat.Div0.mod_add.
      * by rewrite fmap_app, primeWorld_app, <- Hw1.
    + injection Hrun as <- <-.
      apply execRow_fails in Hrowrun'
        as (fs1 & f & fs2 & row1 & a & row2 & row1' & a' & w' & Hfs & -> & Hs & Hall & Hrej);
        [| lia | done].
      injection Hs as Hs ->. apply app_inv_head in Hs.
      pose proof (Forall3_length_lm _ _ _ _ Hall) as Hl1.
      pose proof (Forall3_length_lr _ _ _ _ Hall) as Hl2.
      assert (Hlt : length row1 < length fs).
      { rewrite Hfs, length_app. simpl. lia. }
      exists row1, a, (row2 ++ more), row1', a', w', f.
      split; [by rewrite <- app_assoc|].
      split; [by rewrite Hs, <- !app_assoc|].
      split; [lia|]. split; [|split; [|done]].
      * intros j a0 Hj.
        assert (j < length row1) by (by eapply lookup_lt_Some).
        rewrite Nat.mod_small by lia.
        destruct (Forall3_lookup_m _ _ _ _ _ _ Hall Hj) as (f0 & a0' & Hf0 & Ha0' & Hc).
        exists f0, a0'. split; [|done]. rewrite Hfs. by rewrite lookup_app_l by lia.
      * rewrite Nat.mod_small, Hfs by done.
        rewrite lookup_app_r by lia. by replace (length row1 - length fs1) with 0 by lia.
Qed.

(** X12. Where batched exec fails.  A failure other than that of the
    argument count is at one argument, the first in row-major order that a
    check refuses: every argument before it has been converted for its
    field and its LOB primed, and stays so; every argument behind it is
    untouched.  The refused argument is unchanged when the field has the
    Out direction, or the argument is a wrapper or named (checked in that
    order); when the conversion failed its Value has been overwritten with
    what the conversion returned beside the error; when the first chunk
    failed it holds the descriptor, and the error is the one of
    [FetchNext], unwrapped. *)
Theorem convertExecArgs_first_offender (fuel : nat) (fs : list Field.t) (sz : Z)
    (A : list NamedValue.t) (w : World) (A' : list NamedValue.t) (w' : World)
    (e : error) :
  convertExecArgs fuel fs sz (mkState A w) = (mkState A' w', Fail e) ->
  length A mod length fs = 0 ->
  exists k f a a',
    A !! k = Some a /\ fs !! (k mod length fs) = Some f /\ A' !! k = Some a'
    /\ (forall j a0, j < k -> A !! j = Some a0 ->
          exists f0 a0', fs !! (j mod length fs) = Some f0
                         /\ A' !! j = Some a0' /\ converted fuel f0 a0 a0')
    /\ drop (S k) A' = drop (S k) A
    /\ rejects fuel sz f a (primeWorld sz (NamedValue.Value <$> take k A') w) a' w' e.
Proof.
  intros Hrun Hmod.
  assert (Hfs : fs <> []).
  { intros ->. unfold convertExecArgs in Hrun. simpl in Hrun. congruence. }
  assert (Hn : 0 < length fs) by (destruct fs; simpl; [done | lia]).
  rewrite convertExecArgs_nonempty in Hrun by done. simpl nvargs in Hrun.
  rewrite Hmod in Hrun. simpl in Hrun.
  apply (execRows_fails fuel sz fs _ Hn _ 0 [] [] A w) in Hrun
    as (r1 & a & r2 & r1' & a' & w1 & f & -> & Hs & Hlen & Hpoint & Hf & Hrej);
    [| done | pose proof (Nat.div_mod_eq (length A) (length fs)); lia].
  simpl in Hs. injection Hs as -> ->.
  exists (length r1), f, a, a'.
  split; [by rewrite list_lookup_middle|]. split; [done|].
  split; [by rewrite list_lookup_middle|]. split; [|split].
  - intros j a0 Hj Ha0. rewrite lookup_app_l in Ha0 by done.
    destruct (Hpoint _ _ Ha0) as (f0 & a0' & Hf0 & Ha0' & Hc).
    exists f0, a0'. split; [done|]. split; [|done].
    rewrite lookup_app_l by lia. done.
  - by rewrite !drop_S_middle.
  - rewrite <- Hlen. by rewrite take_app_length.
Qed.

(** X13. Where query binding fails.  On as many arguments as fields a
    failure is at one index, the first that a check refuses: the arguments
    before it have been converted for their fields, index by index, and
    their LOBs primed; those behind it are untouched; the refused one is
    unchanged, or holds what the failed conversion returned, or holds the
    descriptor whose first chunk failed. *)
Theorem convertQueryArgs_first_offender (fuel : nat) (fs : list Field.t) (sz : Z)
    (A : list NamedValue.t) (w : World) (A' : list NamedValue.t) (w' : World)
    (e : error) :
  convertQueryArgs fuel fs sz (mkState A w) = (mkState A' w', Fail e) ->
  length A = length fs ->
  exists k f a a',
    fs !! k = Some f /\ A !! k = Some a /\ A' !! k = Some a'
    /\ Forall3 (converted fuel) (take k fs) (take k A) (take k A')
    /\ drop (S k) A' = drop (S k) A
    /\ rejects fuel sz f a (primeWorld sz (NamedValue.Value <$> take k A') w) a' w' e.
Proof.
  intros Hrun Hlen. unfold convertQueryArgs in Hrun. simpl nvargs in Hrun.
  rewrite Hlen, Nat.eqb_refl in Hrun. simpl negb in Hrun. cbv iota in Hrun.
  rewrite (queryFields_execRow fuel sz 0 fs 0 false) in Hrun.
  destruct (execRow fuel sz 0 0 fs 0 false (mkState A w)) as [s1 r1] eqn:Hrow.
  destruct r1 as [h|e1|p|]; try done. injection Hrun as -> <-.
  pose proof (execRow_fails fuel sz 0 0 fs 0 [] A [] false w) as Hfails.
  rewrite app_nil_r in Hfails. simpl app in Hfails.
  apply Hfails in Hrow
    as (fs1 & f & fs2 & row1 & a & row2 & row1' & a' & w1 & -> & -> & Hs & Hall & Hrej);
    [| done | done].
  rewrite app_nil_r in Hs. injection Hs as -> ->.
  pose proof (Forall3_length_lm _ _ _ _ Hall) as Hl1.
  pose proof (Forall3_length_lr _ _ _ _ Hall) as Hl2.
  exists (length fs1), f, a, a'.
  split; [by rewrite list_lookup_middle|].
  split; [by rewrite list_lookup_middle|].
  split; [by rewrite list_lookup_middle|]. split; [|split].
  - rewrite take_app_length.
    rewrite (take_app_length' row1) by done. by rewrite (take_app_length' row1') by done.
  - by rewrite !drop_S_middle.
  - by rewrite (take_app_length' row1') by done.
Qed.

End Binding.

(** * The properties at work on the sample inputs *)


(** C1, at an in-only LOB field bound to [sql.Out{Dest: 5, In: true}].
    The call succeeds and appends the field to inFields and the argument to
    inArgs; the entry appended is the argument as the caller passed it, its
    Dest still 5 and not the descriptor the converter returns for 5, and no
    [FetchNext] ran (the log of the LOB source is empty).  On the same
    field a plain argument 5 is appended converted, and its descriptor is
    primed once. *)
Theorem convertCallArgs_in_field_out_wrapper :
  convertCallArgs sampleValuer logFetchNext logIsLastData noSuggestion 0
    [lobField "L"] 8 (mkState [outArg 1 (VPrim 5) true] [])
  = (mkState [outArg 1 (VPrim 5) true] [],
     Ok (mkCallArgs [lobField "L"] [] [outArg 1 (VPrim 5) true] []))
  /\ convertArg sampleValuer 0 (lobField "L") (VPrim 5) = Returns (VLob 5) None
  /\ convertCallArgs sampleValuer logFetchNext logIsLastData noSuggestion 0
       [lobField "L"] 8 (mkState [arg 1 (VPrim 5)] [])
     = (mkState [arg 1 (VLob 5)] [5],
        Ok (mkCallArgs [lobField "L"] [] [arg 1 (VLob 5)] [])).
Proof.
  split; [|split].
  - (* the wrapper: nothing stored, nothing fetched *)
    reflexivity.
  - (* what the converter returns for the Dest *)
    reflexivity.
  - (* the plain argument: stored and primed *)
    reflexivity.
Qed.

(** C2 on the batch of three rows: rows 1 and 2 are returned. *)
Lemma convertExecArgs_addLobDataRecs_witness :
  convertExecArgs sampleValuer logFetchNext logIsLastData 0
    [intField "I"; lobField "L"] 8 (mkState threeRows [])
  = (mkState threeRowsBound [1; 2; 0], Ok [1; 2])
  /\ StronglySorted lt [1; 2]
  /\ last [1; 2] = Some (3 - 1).
Proof.
  assert (Hrun :
    convertExecArgs sampleValuer logFetchNext logIsLastData 0
      [intField "I"; lobField "L"] 8 (mkState threeRows [])
    = (mkState threeRowsBound [1; 2; 0], Ok [1; 2])) by reflexivity.
  split; [exact Hrun|].
  destruct (convertExecArgs_addLobDataRecs sampleValuer logFetchNext logIsLastData
              0 [intField "I"; lobField "L"] 8 threeRows [] threeRowsBound
              [1; 2; 0] [1; 2] 3)
    as (Hsorted & Hlast & _); [reflexivity | lia | exact Hrun |].
  by split.
Defined.

(** C2 fails on the empty batch: it is accepted, as zero rows, and the list
    returned is empty, so it has no last element. *)
Lemma convertExecArgs_no_rows_no_last :
  convertExecArgs sampleValuer logFetchNext logIsLastData 0
    [intField "I"] 8 (mkState [] [])
  = (mkState [] [], Ok [])
  /\ length ([] : list NamedValue.t) = 0 * length [intField "I"]
  /\ last ([] : list nat) = None.
Proof. repeat split. Qed.

(** C3 on three arguments for two fields: refused, with both counts. *)
Lemma convertExecArgs_arity_witness :
  [intField "I"; lobField "L"] <> []
  /\ convertExecArgs sampleValuer logFetchNext logIsLastData 0
       [intField "I"; lobField "L"] 8 (mkState (take 3 threeRows) [])
     = (mkState (take 3 threeRows) [], Fail (ErrNotMultiple 3 2)).
Proof.
  assert (Hfs : [intField "I"; lobField "L"] <> []) by discriminate.
  split; [exact Hfs|].
  apply (proj1 (convertExecArgs_arity sampleValuer logFetchNext logIsLastData
                  0 [intField "I"; lobField "L"] 8 (take 3 threeRows) [] Hfs)).
  vm_compute. discriminate.
Defined.

(** C3 fails on the empty argument list: zero is no positive multiple of
    the field count, and the call succeeds. *)
Lemma convertExecArgs_accepts_zero_rows :
  (convertExecArgs sampleValuer logFetchNext logIsLastData 0
     [intField "I"] 8 (mkState [] [])).2 = Ok []
  /\ ~ (exists r, 1 <= r /\ length ([] : list NamedValue.t) = r * length [intField "I"]).
Proof.
  split; [reflexivity|]. intros (r & Hr & Hlen). simpl in Hlen. lia.
Qed.

(** C4 on a window with one entry named [A]: it moves to the front. *)
Lemma reorderNVArgs_rotates_single_witness :
  length (namedFrom 0 "A" namedBA) <= 1
  /\ reorderNVArgs 0 "A" namedBA = [named 2 "A" 1; named 1 "B" 2].
Proof.
  assert (Hone : length (namedFrom 0 "A" namedBA) <= 1) by (vm_compute; lia).
  split; [exact Hone|].
  destruct (reorderNVArgs_rotates_single 0 "A" namedBA Hone) as (Hrot & _).
  rewrite Hrot. reflexivity.
Defined.

(** C4 fails on a window with two entries named [t]: the second match is
    rotated to the front as well, so the entry that ends at [p] is the last
    match and not the first, the first match is moved in front of an entry
    it followed, and a match that is at [p] already does not stay there.
    It fails on the empty name too: a positional entry behind [p] has the
    Name [""], and it is not moved. *)
Lemma reorderNVArgs_two_matches :
  reorderNVArgs 0 "t" twoNamedT
  = [named 4 "t" 4; named 2 "t" 2; named 1 "a" 1; named 3 "b" 3]
  /\ rotateFirstNamed 0 "t" twoNamedT
     = [named 2 "t" 2; named 1 "a" 1; named 3 "b" 3; named 4 "t" 4]
  /\ reorderNVArgs 0 "t" twoNamedT <> rotateFirstNamed 0 "t" twoNamedT
  /\ twoNamedT !! 1 = Some (named 2 "t" 2)
  /\ reorderNVArgs 1 "t" twoNamedT
     = [named 1 "a" 1; named 4 "t" 4; named 2 "t" 2; named 3 "b" 3]
  /\ rotateFirstNamed 0 "" [named 1 "a" 1; arg 2 (VPrim 2)]
     = [arg 2 (VPrim 2); named 1 "a" 1]
  /\ reorderNVArgs 0 "" [named 1 "a" 1; arg 2 (VPrim 2)]
     = [named 1 "a" 1; arg 2 (VPrim 2)].
Proof. repeat split. discriminate. Qed.

(** C5 on one in field, one named argument and one trailing cursor
    output. *)
Lemma convertCallArgs_callArgs_witness :
  convertCallArgs sampleValuer logFetchNext logIsLastData noSuggestion 0
    [intField "X"] 8 (mkState [named 1 "X" 1; outArg 2 (VRows false) false] [])
  = (mkState [named 1 "X" 1; outArg 2 (VRows false) false] [],
     Ok (mkCallArgs [intField "X"] [] [named 1 "X" 1] [outArg 2 (VRows false) false]))
  /\ inFields (mkCallArgs [intField "X"] [] [named 1 "X" 1] [outArg 2 (VRows false) false])
     = List.filter Field.In [intField "X"].
Proof.
  assert (Hrun :
    convertCallArgs sampleValuer logFetchNext logIsLastData noSuggestion 0
      [intField "X"] 8 (mkState [named 1 "X" 1; outArg 2 (VRows false) false] [])
    = (mkState [named 1 "X" 1; outArg 2 (VRows false) false] [],
       Ok (mkCallArgs [intField "X"] [] [named 1 "X" 1]
             [outArg 2 (VRows false) false]))) by reflexivity.
  split; [exact Hrun|].
  by destruct (convertCallArgs_callArgs _ _ _ _ _ _ _ _ _ _ Hrun)
    as (_ & _ & _ & _ & Hin & _).
Defined.

(** C6 on a trailing output wrapper whose Dest is no cursor sink, followed
    by a plain value: the call fails at index 1, on the type of the Dest. *)
Lemma convertCallArgs_trailing_witness :
  length [intField "X"]
  <= length [named 1 "X" 1; outArg 2 (VPrim 3) false; arg 3 (VPrim 4)]
  /\ convertCallArgs sampleValuer logFetchNext logIsLastData noSuggestion 0
       [intField "X"] 8
       (mkState [named 1 "X" 1; outArg 2 (VPrim 3) false; arg 3 (VPrim 4)] [])
     = (mkState [named 1 "X" 1; outArg 2 (VPrim 3) false; arg 3 (VPrim 4)] [],
        Fail (ErrOutParam TPrim 1)).
Proof.
  assert (Hlen : length [intField "X"]
                 <= length [named 1 "X" 1; outArg 2 (VPrim 3) false; arg 3 (VPrim 4)])
    by (simpl; lia).
  split; [exact Hlen|].
  pose proof (proj2 (convertCallArgs_trailing sampleValuer logFetchNext logIsLastData
                       noSuggestion 0 [intField "X"] 8
                       (mkState [named 1 "X" 1; outArg 2 (VPrim 3) false; arg 3 (VPrim 4)] []))
                (mkState [named 1 "X" 1; outArg 2 (VPrim 3) false; arg 3 (VPrim 4)] [])
                (mkCallArgs [intField "X"] [] [named 1 "X" 1] [])
                Hlen eq_refl) as Hcase.
  exact (proj2 (proj2 (proj2 Hcase))).
Defined.

(** C7 on positional arguments in call mode: every pair stays in place. *)
Lemma binders_keep_ordinal_and_name_witness :
  Forall (fun a => NamedValue.Name a = "") [arg 1 (VPrim 1); arg 2 (VPrim 2)]
  /\ NamedValue.key <$>
       nvargs (convertCallArgs sampleValuer logFetchNext logIsLastData noSuggestion 0
                 [intField "A"; lobField "B"] 8
                 (mkState [arg 1 (VPrim 1); arg 2 (VPrim 2)] [])).1
     = NamedValue.key <$> [arg 1 (VPrim 1); arg 2 (VPrim 2)].
Proof.
  assert (Hpos : Forall (fun a => NamedValue.Name a = "")
                   [arg 1 (VPrim 1); arg 2 (VPrim 2)])
    by (repeat constructor).
  split; [exact Hpos|].
  destruct (binders_keep_ordinal_and_name sampleValuer logFetchNext logIsLastData
              noSuggestion 0 [intField "A"; lobField "B"] 8
              (mkState [arg 1 (VPrim 1); arg 2 (VPrim 2)] []))
    as (_ & _ & _ & _ & Hkeep).
  exact (Hkeep Hpos).
Defined.

(** C7 fails in call mode on arguments named in another order than the
    fields: the call is accepted and the caller's array comes back
    reordered, index 0 holding the Name and Ordinal that index 1 held. *)
Lemma convertCallArgs_moves_entries :
  (convertCallArgs sampleValuer logFetchNext logIsLastData noSuggestion 0
     [intField "A"; intField "B"] 8 (mkState namedBA [])).2
  = Ok (mkCallArgs [intField "A"; intField "B"] [] [named 2 "A" 1; named 1 "B" 2] [])
  /\ NamedValue.key <$> namedBA = [(1%Z, "B"); (2%Z, "A")]
  /\ NamedValue.key <$>
       nvargs (convertCallArgs sampleValuer logFetchNext logIsLastData noSuggestion 0
                 [intField "A"; intField "B"] 8 (mkState namedBA [])).1
     = [(2%Z, "A"); (1%Z, "B")].
Proof. split; [reflexivity | split; reflexivity]. Qed.





(** C10 on an integer: neither nil nor a pointer, so not null. *)
Lemma isNilArg_pointer_invariant_witness :
  kindIsPtr (VPrim 42) = false
  /\ VPrim 42 <> VNil
  /\ isNilArg (VPtr None (VPtr None (VPrim 42))) = isNilArg (VPrim 42)
  /\ isNilArg (VPrim 42) = Some false.
Proof.
  assert (Hkind : kindIsPtr (VPrim 42) = false) by reflexivity.
  assert (Hnil : VPrim 42 <> VNil) by discriminate.
  split; [exact Hkind|]. split; [exact Hnil|].
  destruct (isNilArg_pointer_invariant (VPrim 42) None None)
    as (_ & Hptr & _ & _ & _ & _ & Hfalse).
  split; [exact Hptr | exact (Hfalse Hkind Hnil)].
Defined.

(** ** Package dbtest *)

Lemma scanAll_spec (acc : list dbtest.mSessionContext)
    (scans : list (error + dbtest.mSessionContext)) :
  match dbtest.scanAll acc scans with
  | inr mscs => exists tail, scans = inr <$> tail /\ mscs = acc ++ tail
  | inl err => exists pre rest, scans = (inr <$> pre) ++ inl err :: rest
  end.
Proof.
  revert acc. induction scans as [|[err|msc] rest IH]; intros acc; simpl.
  - exists []. by rewrite app_nil_r.
  - by exists [], rest.
  - specialize (IH (acc ++ [msc])).
    destruct (dbtest.scanAll (acc ++ [msc]) rest) as [err|mscs].
    + destruct IH as (pre & rest' & ->). by exists (msc :: pre), rest'.
    + destruct IH as (tail & -> & ->). exists (msc :: tail).
      by rewrite <- app_assoc.
Qed.

Lemma sessionVariables_lookup (mscs : list dbtest.mSessionContext)
    (sv : gmap string string) (k : string) :
  foldl (fun sv v => <[dbtest.key v := dbtest.value v]> sv) sv mscs !! k
  = match last (filter (fun v => dbtest.key v = k) mscs) with
    | Some v => Some (dbtest.value v)
    | None => sv !! k
    end.
Proof.
  revert sv. induction mscs as [|v l IH]; intros sv; [done|].
  simpl. rewrite IH, filter_cons.
  destruct (decide (dbtest.key v = k)) as [<-|Hne].
  - destruct (filter _ l) as [|x fl] eqn:Hfl; simpl.
    + by rewrite lookup_insert_eq.
    + change (last (v :: x :: fl)) with (last (x :: fl)).
      by destruct (last (x :: fl)) eqn:Hl; [|apply last_None in Hl].
  - destruct (last (filter _ l)); [done|]. by rewrite lookup_insert_ne.
Qed.

(** X11. [QuerySessionVariables] returns a map exactly when the query, every
    [Scan] and [rows.Err()] succeeded; the map then gives each key the
    value of the last record of that key, and nothing to a key of no
    record.  Otherwise it returns the first error met: that of the query,
    of the first failing [Scan], or of [rows.Err()] after all rows
    scanned. *)
Theorem QuerySessionVariables_last_wins (query : error + dbtest.rows) :
  match dbtest.QuerySessionVariables query with
  | inr sv =>
      exists rs mscs,
        query = inr rs /\ dbtest.scans rs = inr <$> mscs /\ dbtest.Err rs = None
        /\ forall k, sv !! k
             = dbtest.value <$> last (filter (fun v => dbtest.key v = k) mscs)
  | inl err =>
      query = inl err
      \/ exists rs, query = inr rs
           /\ ((exists pre rest,
                  dbtest.scans rs = (inr <$> pre) ++ inl err :: rest)
               \/ (exists mscs, dbtest.scans rs = inr <$> mscs
                                /\ dbtest.Err rs = Some err))
  end.
Proof.
  unfold dbtest.QuerySessionVariables, dbtest.sessionContext.
  destruct query as [err|rs]; [by left|].
  pose proof (scanAll_spec [] (dbtest.scans rs)) as Hscan.
  destruct (dbtest.scanAll [] (dbtest.scans rs)) as [err|mscs].
  - right. exists rs. split; [done|]. by left.
  - destruct Hscan as (tail & Hscans & ->). simpl.
    destruct (dbtest.Err rs) as [err|] eqn:Herr.
    + right. exists rs. split; [done|]. right. by exists tail.
    + exists rs, tail. repeat split; try done.
      intros k. rewrite sessionVariables_lookup, lookup_empty.
      by destruct (last _).
Qed.

(** ** The further properties on the sample inputs *)


(** X3 on the batch of three rows: nothing named, nothing wrapped, and the
    three descriptors fetched from in argument order. *)
Lemma convertExecArgs_accepts_witness :
  convertExecArgs sampleValuer logFetchNext logIsLastData 0
    [intField "I"; lobField "L"] 8 (mkState threeRows [])
  = (mkState threeRowsBound [1; 2; 0], Ok [1; 2])
  /\ Forall plainPositional threeRows
  /\ length threeRowsBound = length threeRows
  /\ [1; 2; 0]
     = primeWorld logFetchNext logIsLastData 8 (NamedValue.Value <$> threeRowsBound) [].
Proof.
  assert (Hrun :
    convertExecArgs sampleValuer logFetchNext logIsLastData 0
      [intField "I"; lobField "L"] 8 (mkState threeRows [])
    = (mkState threeRowsBound [1; 2; 0], Ok [1; 2])) by reflexivity.
  split; [exact Hrun|].
  destruct (convertExecArgs_accepts sampleValuer logFetchNext logIsLastData
              0 [intField "I"; lobField "L"] 8 threeRows [] threeRowsBound
              [1; 2; 0] [1; 2] Hrun)
    as (Hplain & _ & Hlen & Hworld).
  split; [exact Hplain|]. split; [exact Hlen | exact Hworld].
Defined.

(** X4 on two rows of one integer: the last row alone. *)
Lemma convertExecArgs_only_last_row_witness :
  length [arg 1 (VPrim 10); arg 2 (VPrim 20)] = 2 * length [intField "I"]
  /\ 1 <= 2
  /\ convertExecArgs sampleValuer logFetchNext logIsLastData 0
       [intField "I"] 8 (mkState [arg 1 (VPrim 10); arg 2 (VPrim 20)] [])
     = (mkState [arg 1 (VPrim 10); arg 2 (VPrim 20)] [], Ok [1])
  /\ Forall (fun a => isLob (NamedValue.Value a) = false)
       [arg 1 (VPrim 10); arg 2 (VPrim 20)]
  /\ [1] = [2 - 1].
Proof.
  assert (Hlen : length [arg 1 (VPrim 10); arg 2 (VPrim 20)] = 2 * length [intField "I"])
    by reflexivity.
  assert (Hr : 1 <= 2) by lia.
  assert (Hrun :
    convertExecArgs sampleValuer logFetchNext logIsLastData 0
      [intField "I"] 8 (mkState [arg 1 (VPrim 10); arg 2 (VPrim 20)] [])
    = (mkState [arg 1 (VPrim 10); arg 2 (VPrim 20)] [], Ok [1])) by reflexivity.
  assert (Hnolob : Forall (fun a => isLob (NamedValue.Value a) = false)
                     [arg 1 (VPrim 10); arg 2 (VPrim 20)])
    by (repeat constructor).
  split; [exact Hlen|]. split; [exact Hr|]. split; [exact Hrun|].
  split; [exact Hnolob|].
  destruct (convertExecArgs_only_last_row sampleValuer logFetchNext logIsLastData
              0 [intField "I"] 8 [arg 1 (VPrim 10); arg 2 (VPrim 20)] []
              [arg 1 (VPrim 10); arg 2 (VPrim 20)] [] [1] 2 Hlen Hr Hrun)
    as (_ & Hlast).
  exact (Hlast Hnolob).
Defined.

(** X5 on one row for the fields [int; lob]: converted index by index,
    descriptor 1 fetched from once. *)
Lemma convertQueryArgs_binds_witness :
  convertQueryArgs sampleValuer logFetchNext logIsLastData 0
    [intField "I"; lobField "L"] 8 (mkState (take 2 threeRows) [])
  = (mkState (take 2 threeRowsBound) [1], Ok tt)
  /\ Forall3 (converted sampleValuer 0) [intField "I"; lobField "L"]
       (take 2 threeRows) (take 2 threeRowsBound)
  /\ [1] = primeWorld logFetchNext logIsLastData 8
             (NamedValue.Value <$> take 2 threeRowsBound) [].
Proof.
  assert (Hrun :
    convertQueryArgs sampleValuer logFetchNext logIsLastData 0
      [intField "I"; lobField "L"] 8 (mkState (take 2 threeRows) [])
    = (mkState (take 2 threeRowsBound) [1], Ok tt)) by reflexivity.
  split; [exact Hrun|].
  destruct (convertQueryArgs_binds sampleValuer logFetchNext logIsLastData
              0 [intField "I"; lobField "L"] 8 (take 2 threeRows) [])
    as (_ & Hok).
  destruct (Hok _ Hrun) as (_ & Hconv & Hworld & _).
  split; [exact Hconv | exact Hworld].
Defined.

(** X6 on one row for the fields [int; lob]. *)
Lemma convertExecArgs_one_row_is_query_witness :
  [intField "I"; lobField "L"] <> []
  /\ length (nvargs (mkState (take 2 threeRows) ([] : list lobref)))
     = length [intField "I"; lobField "L"]
  /\ convertExecArgs sampleValuer logFetchNext logIsLastData 0
       [intField "I"; lobField "L"] 8 (mkState (take 2 threeRows) [])
     = withResult [0]
         (convertQueryArgs sampleValuer logFetchNext logIsLastData 0
            [intField "I"; lobField "L"] 8 (mkState (take 2 threeRows) [])).
Proof.
  assert (Hfs : [intField "I"; lobField "L"] <> []) by discriminate.
  assert (Hlen : length (nvargs (mkState (take 2 threeRows) ([] : list lobref)))
                 = length [intField "I"; lobField "L"]) by reflexivity.
  split; [exact Hfs|]. split; [exact Hlen|].
  exact (convertExecArgs_one_row_is_query sampleValuer logFetchNext logIsLastData
           0 [intField "I"; lobField "L"] 8 (mkState (take 2 threeRows) []) Hfs Hlen).
Defined.

(** X7 on an empty field list: the fault of batched exec is the division
    by zero. *)
Lemma binders_index_in_range_witness :
  (convertExecArgs sampleValuer logFetchNext logIsLastData 0
     [] 8 (mkState threeRows [])).2 = Panic DivideByZero
  /\ ([] : list Field.t) = [] /\ DivideByZero = DivideByZero.
Proof.
  assert (Hrun :
    (convertExecArgs sampleValuer logFetchNext logIsLastData 0
       [] 8 (mkState threeRows [])).2 = Panic DivideByZero) by reflexivity.
  split; [exact Hrun|].
  exact (proj1 (binders_index_in_range sampleValuer logFetchNext logIsLastData
                  noSuggestion 0 [] 8 (mkState threeRows []) DivideByZero) Hrun).
Defined.

(** X8 on two arguments named in the reverse of the declared order: each
    ends at the field of its name and is handed on from there. *)
Lemma convertCallArgs_bound_witness :
  convertCallArgs sampleValuer logFetchNext logIsLastData noSuggestion 0
    [intField "A"; intField "B"] 8 (mkState namedBA [])
  = (mkState [named 2 "A" 1; named 1 "B" 2] [],
     Ok (mkCallArgs [intField "A"; intField "B"] []
           [named 2 "A" 1; named 1 "B" 2] []))
  /\ Forall2 (boundTo sampleValuer 0 namedBA) [intField "A"; intField "B"]
       [named 2 "A" 1; named 1 "B" 2].
Proof.
  assert (Hrun :
    convertCallArgs sampleValuer logFetchNext logIsLastData noSuggestion 0
      [intField "A"; intField "B"] 8 (mkState namedBA [])
    = (mkState [named 2 "A" 1; named 1 "B" 2] [],
       Ok (mkCallArgs [intField "A"; intField "B"] []
             [named 2 "A" 1; named 1 "B" 2] []))) by reflexivity.
  split; [exact Hrun|].
  destruct (convertCallArgs_bound sampleValuer logFetchNext logIsLastData noSuggestion
              0 [intField "A"; intField "B"] 8 (mkState namedBA []) _ _ Hrun)
    as (_ & _ & Hbound).
  exact Hbound.
Defined.


(** X12 on two rows of one integer, the second a producer that fails: the
    first row stays converted, the slot of the second holds the nil value
    the failed conversion returned. *)
Lemma convertExecArgs_first_offender_witness :
  convertExecArgs sampleValuer logFetchNext logIsLastData 1
    [intField "I"] 8 (mkState [arg 1 (VPrim 10); arg 2 (VValuer 2)] [])
  = (mkState [arg 1 (VPrim 10); arg 2 VNil] [],
     Fail (ErrConversion "I" (ErrExternal 9)))
  /\ length [arg 1 (VPrim 10); arg 2 (VValuer 2)] mod length [intField "I"] = 0
  /\ exists k f a a',
       [arg 1 (VPrim 10); arg 2 (VValuer 2)] !! k = Some a
       /\ [intField "I"] !! (k mod length [intField "I"]) = Some f
       /\ [arg 1 (VPrim 10); arg 2 VNil] !! k = Some a'
       /\ (forall j a0, j < k -> [arg 1 (VPrim 10); arg 2 (VValuer 2)] !! j = Some a0 ->
             exists f0 a0', [intField "I"] !! (j mod length [intField "I"]) = Some f0
                            /\ [arg 1 (VPrim 10); arg 2 VNil] !! j = Some a0'
                            /\ converted sampleValuer 1 f0 a0 a0')
       /\ drop (S k) [arg 1 (VPrim 10); arg 2 VNil]
          = drop (S k) [arg 1 (VPrim 10); arg 2 (VValuer 2)]
       /\ rejects sampleValuer logFetchNext 1 8 f a
            (primeWorld logFetchNext logIsLastData 8
               (NamedValue.Value <$> take k [arg 1 (VPrim 10); arg 2 VNil]) [])
            a' [] (ErrConversion "I" (ErrExternal 9)).
Proof.
  assert (Hrun :
    convertExecArgs sampleValuer logFetchNext logIsLastData 1
      [intField "I"] 8 (mkState [arg 1 (VPrim 10); arg 2 (VValuer 2)] [])
    = (mkState [arg 1 (VPrim 10); arg 2 VNil] [],
       Fail (ErrConversion "I" (ErrExternal 9)))) by reflexivity.
  assert (Hmod : length [arg 1 (VPrim 10); arg 2 (VValuer 2)] mod length [intField "I"] = 0)
    by reflexivity.
  split; [exact Hrun|]. split; [exact Hmod|].
  exact (convertExecArgs_first_offender sampleValuer logFetchNext logIsLastData
           1 [intField "I"] 8 _ _ _ _ _ Hrun Hmod).
Defined.

(** X13 on two integer fields, the second argument a producer that fails. *)
Lemma convertQueryArgs_first_offender_witness :
  convertQueryArgs sampleValuer logFetchNext logIsLastData 1
    [intField "I"; intField "J"] 8 (mkState [arg 1 (VPrim 10); arg 2 (VValuer 2)] [])
  = (mkState [arg 1 (VPrim 10); arg 2 VNil] [],
     Fail (ErrConversion "J" (ErrExternal 9)))
  /\ length [arg 1 (VPrim 10); arg 2 (VValuer 2)] = length [intField "I"; intField "J"]
  /\ exists k f a a',
       [intField "I"; intField "J"] !! k = Some f
       /\ [arg 1 (VPrim 10); arg 2 (VValuer 2)] !! k = Some a
       /\ [arg 1 (VPrim 10); arg 2 VNil] !! k = Some a'
       /\ Forall3 (converted sampleValuer 1) (take k [intField "I"; intField "J"])
            (take k [arg 1 (VPrim 10); arg 2 (VValuer 2)])
            (take k [arg 1 (VPrim 10); arg 2 VNil])
       /\ drop (S k) [arg 1 (VPrim 10); arg 2 VNil]
          = drop (S k) [arg 1 (VPrim 10); arg 2 (VValuer 2)]
       /\ rejects sampleValuer logFetchNext 1 8 f a
            (primeWorld logFetchNext logIsLastData 8
               (NamedValue.Value <$> take k [arg 1 (VPrim 10); arg 2 VNil]) [])
            a' [] (ErrConversion "J" (ErrExternal 9)).
Proof.
  assert (Hrun :
    convertQueryArgs sampleValuer logFetchNext logIsLastData 1
      [intField "I"; intField "J"] 8 (mkState [arg 1 (VPrim 10); arg 2 (VValuer 2)] [])
    = (mkState [arg 1 (VPrim 10); arg 2 VNil] [],
       Fail (ErrConversion "J" (ErrExternal 9)))) by reflexivity.
  assert (Hlen : length [arg 1 (VPrim 10); arg 2 (VValuer 2)]
                 = length [intField "I"; intField "J"]) by reflexivity.
  split; [exact Hrun|]. split; [exact Hlen|].
  exact (convertQueryArgs_first_offender sampleValuer logFetchNext logIsLastData
           1 [intField "I"; intField "J"] 8 _ _ _ _ _ Hrun Hlen).
Defined.
